(** * The paragraph chunker of scripts/build_dataset.py

    A shallow embedding of [chunk_paragraphs], of [fetch_embedding] and of
    the part of [main] that drives them, with the properties of the chunk
    builder that the design document states.  The second half of the file
    covers more of the two scripts: [extract_paragraphs] and [sql_escape]
    of the same script, and [sanitize_filename] and [main] with its loop
    over the cases of fetch_taxlaw_cases_to_pdf.py.

    Python values are modelled as follows.
    - [int] is [Z] (unbounded, as in Python).
    - [str] is a list of Unicode code points ([N]); [len] counts code
      points, as Python does.
    - a [list] is a Rocq list; [buffer.append(x)] is [buffer ++ [x]].
    - the [for ... break] loop is a structural recursion over the input
      that returns at the [break]. *)

From Stdlib Require Import ZArith NArith List Bool Ascii String Lia.
From stdpp Require Import base list relations.

Local Open Scope Z_scope.

(** ** Python strings *)

Module Py.

Definition char : Type := N.
Definition str : Type := list char.

(** [len(x)] for strings and lists. *)
Definition len {A : Type} (l : list A) : Z := Z.of_nat (length l).

(** Truth value of a list: [if buffer]. *)
Definition truthy {A : Type} (l : list A) : bool :=
  match l with [] => false | _ :: _ => true end.

Definition space : char := 32%N.

(** The code points that [str.strip()] removes: those for which
    [str.isspace()] holds. *)
Definition isspace (c : char) : bool :=
  ((9 <=? c) && (c <=? 13) || (28 <=? c) && (c <=? 32)
   || (c =? 133) || (c =? 160) || (c =? 5760)
   || (8192 <=? c) && (c <=? 8202)
   || (c =? 8232) || (c =? 8233) || (c =? 8239) || (c =? 8287)
   || (c =? 12288))%N.

Fixpoint lstrip (s : str) : str :=
  match s with
  | [] => []
  | c :: s' => if isspace c then lstrip s' else s
  end.

Definition rstrip (s : str) : str := rev (lstrip (rev s)).

(** [s.strip()]: leading white space goes first, then trailing. *)
Definition strip (s : str) : str := rstrip (lstrip s).

(** [sep.join(parts)]. *)
Fixpoint join (sep : str) (parts : list str) : str :=
  match parts with
  | [] => []
  | p :: rest =>
      match rest with
      | [] => p
      | _ :: _ => p ++ sep ++ join sep rest
      end
  end.

(** [l[:stop]]: a negative [stop] counts from the end. *)
Definition slice_to {A : Type} (l : list A) (stop : Z) : list A :=
  if stop <? 0 then take (Z.to_nat (len l + stop)) l
  else take (Z.to_nat stop) l.

(** [s * n]. *)
Definition times (s : str) (n : nat) : str := concat (repeat s n).

(** A string literal whose characters are all below U+0100. *)
Definition lit (s : String.string) : str :=
  map Ascii.N_of_ascii (String.list_ascii_of_string s).

End Py.

Import Py.

(** ** chunk_paragraphs *)

(** The local variables of [chunk_paragraphs]. *)
Record state : Type := State {
  chunks : list str;
  buffer : list str;
  buffer_len : Z
}.

Definition initial : state := State [] [] 0.

(** How one iteration of the loop ends: it falls through to the next
    paragraph, or it leaves the loop by [break]. *)
Inductive signal : Type :=
| Next (st : state)
| Break (st : state).

Definition state_of (s : signal) : state :=
  match s with Next st => st | Break st => st end.

(** [chunk = " ".join(buffer).strip()] *)
Definition chunk_of (buf : list str) : str := strip (join [space] buf).

(** Lines 74-76 and 84-86: the chunk is appended when it is long enough. *)
Definition flush (min_chars : Z) (st : state) : list str :=
  let chunk := chunk_of (buffer st) in
  if len chunk >=? min_chars then chunks st ++ [chunk] else chunks st.

(** Lines 73-82: the loop body. *)
Definition body (max_chars min_chars max_chunks : Z)
    (st : state) (paragraph : str) : signal :=
  if truthy (buffer st) && (buffer_len st + len paragraph + 1 >? max_chars)
  then
    let chunks' := flush min_chars st in
    if len chunks' >=? max_chunks then Break (State chunks' [] 0)
    else Next (State chunks' [paragraph] (0 + (len paragraph + 1)))
  else
    Next (State (chunks st) (buffer st ++ [paragraph])
                (buffer_len st + (len paragraph + 1))).

(** Lines 72-82: [for paragraph in paragraphs]. *)
Fixpoint for_loop (max_chars min_chars max_chunks : Z)
    (paragraphs : list str) (st : state) : signal :=
  match paragraphs with
  | [] => Next st
  | paragraph :: rest =>
      match body max_chars min_chars max_chunks st paragraph with
      | Next st' => for_loop max_chars min_chars max_chunks rest st'
      | Break st' => Break st'
      end
  end.

(** Lines 83-87. *)
Definition finish (min_chars max_chunks : Z) (st : state) : list str :=
  let chunks' :=
    if truthy (buffer st) && (len (chunks st) <? max_chunks)
    then flush min_chars st
    else chunks st in
  slice_to chunks' max_chunks.

Definition chunk_paragraphs (paragraphs : list str)
    (max_chars min_chars max_chunks : Z) : list str :=
  finish min_chars max_chunks
    (state_of (for_loop max_chars min_chars max_chunks paragraphs initial)).

(** ** Ghost instrumentation

    The chunks are plain strings, so the code keeps no record of the
    paragraphs a chunk was built from.  The ghost state below keeps that
    record: it is updated at the two places where a buffer is flushed and
    it never influences the run. *)

Record ghost : Type := Ghost {
  sources : list (list str);  (* the buffer behind every appended chunk *)
  flushed : list (list str)   (* every buffer flushed, appended or not *)
}.

Definition no_ghost : ghost := Ghost [] [].

Definition note_flush (min_chars : Z) (st : state) (g : ghost) : ghost :=
  Ghost (if len (chunk_of (buffer st)) >=? min_chars
         then sources g ++ [buffer st] else sources g)
        (flushed g ++ [buffer st]).

Definition ghost_body (max_chars min_chars : Z)
    (st : state) (paragraph : str) (g : ghost) : ghost :=
  if truthy (buffer st) && (buffer_len st + len paragraph + 1 >? max_chars)
  then note_flush min_chars st g
  else g.

Fixpoint ghost_loop (max_chars min_chars max_chunks : Z)
    (paragraphs : list str) (st : state) (g : ghost) : ghost :=
  match paragraphs with
  | [] => g
  | paragraph :: rest =>
      let g' := ghost_body max_chars min_chars st paragraph g in
      match body max_chars min_chars max_chunks st paragraph with
      | Next st' => ghost_loop max_chars min_chars max_chunks rest st' g'
      | Break _ => g'
      end
  end.

Definition ghost_finish (min_chars max_chunks : Z)
    (st : state) (g : ghost) : ghost :=
  if truthy (buffer st) && (len (chunks st) <? max_chunks)
  then note_flush min_chars st g
  else g.

Definition ghost_of (paragraphs : list str)
    (max_chars min_chars max_chunks : Z) : ghost :=
  ghost_finish min_chars max_chunks
    (state_of (for_loop max_chars min_chars max_chunks paragraphs initial))
    (ghost_loop max_chars min_chars max_chunks paragraphs initial no_ghost).

(** The paragraphs behind each returned chunk, in output order. *)
Definition chunk_sources (paragraphs : list str)
    (max_chars min_chars max_chunks : Z) : list (list str) :=
  slice_to (sources (ghost_of paragraphs max_chars min_chars max_chunks))
           max_chunks.

(** Every buffer that was flushed, in the order of the flushes. *)
Definition flushed_buffers (paragraphs : list str)
    (max_chars min_chars max_chunks : Z) : list (list str) :=
  flushed (ghost_of paragraphs max_chars min_chars max_chunks).

(** ** The control flow of chunk_paragraphs as a transition relation

    The same lines once more, one transition for each way control can
    take through them.  Totality and determinism of the function are
    statements about this relation. *)

Module Machine.

Inductive config : Type :=
| Looping (remaining : list str) (st : state) (* line 72, next paragraph due *)
| Leaving (st : state)                        (* line 83, the loop is over *)
| Returned (out : list str).                  (* line 87 *)

Section Step.

Variables max_chars min_chars max_chunks : Z.

(** Lines 74-76 and 84-86. *)
Inductive flushes (st : state) : list str -> Prop :=
| flushes_append :
    len (chunk_of (buffer st)) >= min_chars ->
    flushes st (chunks st ++ [chunk_of (buffer st)])
| flushes_drop :
    ~ len (chunk_of (buffer st)) >= min_chars ->
    flushes st (chunks st).

Inductive step : config -> config -> Prop :=
| step_exhausted st :
    step (Looping [] st) (Leaving st)
| step_append paragraph rest st :
    ~ (buffer st <> [] /\ buffer_len st + len paragraph + 1 > max_chars) ->
    step (Looping (paragraph :: rest) st)
         (Looping rest (State (chunks st) (buffer st ++ [paragraph])
                              (buffer_len st + (len paragraph + 1))))
| step_flush paragraph rest st chunks' :
    buffer st <> [] ->
    buffer_len st + len paragraph + 1 > max_chars ->
    flushes st chunks' ->
    ~ len chunks' >= max_chunks ->
    step (Looping (paragraph :: rest) st)
         (Looping rest (State chunks' [paragraph] (0 + (len paragraph + 1))))
| step_break paragraph rest st chunks' :
    buffer st <> [] ->
    buffer_len st + len paragraph + 1 > max_chars ->
    flushes st chunks' ->
    len chunks' >= max_chunks ->
    step (Looping (paragraph :: rest) st) (Leaving (State chunks' [] 0))
| step_last_flush st chunks' :
    buffer st <> [] ->
    len (chunks st) < max_chunks ->
    flushes st chunks' ->
    step (Leaving st) (Returned (slice_to chunks' max_chunks))
| step_return st :
    ~ (buffer st <> [] /\ len (chunks st) < max_chunks) ->
    step (Leaving st) (Returned (slice_to (chunks st) max_chunks)).

End Step.

(** The call [chunk_paragraphs(paragraphs, ...)] starts here. *)
Definition entry (paragraphs : list str) : config :=
  Looping paragraphs initial.

End Machine.

(** ** fetch_embedding and main

    The collaborators of the pipeline are not part of the model: the PDF
    reader, the embedding provider and the file system are consulted
    through an environment that fixes what each call answers, and every
    call made to the outside is recorded in a log. *)

Module Pipeline.

Definition EMBED_MODEL : str := lit "text-embedding-3-small".
Definition DIM : Z := 1536.

Inductive exit_message : Type :=
| PdfNotFound
| ApiKeyRequired
| NoTextExtracted
| NoChunksProduced.

Inductive exception : Type :=
| SystemExit (message : exit_message)      (* lines 154, 158, 162, 166 *)
| RuntimeError (status : Z) (body : str)   (* line 104 *)
| ValueError (got : Z)                     (* line 110 *)
| LibraryError.                            (* raised inside a library call *)

Inductive result (A : Type) : Type :=
| Ok (value : A)
| Raise (e : exception).

Arguments Ok {A} value.
Arguments Raise {A} e.

Section WithCollaborators.

(** The numbers of an embedding, and the paths of the file system. *)
Context {float path : Type}.

(** [Path.parent]. *)
Variable parent : path -> path.

(** [build_sql]: the text of the seed file, a function of the title, the
    source and the embedded chunks. *)
Variable build_sql : str -> str -> list (str * list float) -> str.

(** What the provider sent back. *)
Record response : Type := Response {
  status_code : Z;
  text : str;
  (** [response.json()["data"][0]["embedding"]] *)
  payload_embedding : result (list float)
}.

Record env : Type := Env {
  pdf_exists : bool;                       (* [pdf_path.exists()] *)
  OPENAI_API_KEY : option str;             (* [os.environ.get(...)] *)
  extracted : result (list str);           (* [extract_paragraphs(pdf_path)] *)
  (** The answer to the [n]-th request sent to the provider (counted
      from 0), for the text sent. *)
  provider : nat -> str -> result response;
  mkdir_answer : result unit;
  write_answer : result unit
}.

Record namespace : Type := Args {
  pdf : path;
  title : str;
  source : str;
  output : path;
  max_chars : Z;
  min_chars : Z;
  max_chunks : Z
}.

Inductive line : Type :=
| EmbeddingChunk (number total length : Z)  (* line 170 *)
| WroteChunks (count : Z) (file : path).    (* line 178 *)

(** The calls made to the outside, in the order they are made. *)
Inductive event : Type :=
| Printed (l : line)
| Posted (input model api_key : str)
| MadeDirs (dir : path)
| WroteText (file : path) (content : str).

(** Computations that log events and may raise. *)
Definition M (A : Type) : Type := list event -> list event * result A.

Definition ret {A : Type} (x : A) : M A := fun log => (log, Ok x).

Definition raise {A : Type} (e : exception) : M A := fun log => (log, Raise e).

Definition bind {A B : Type} (m : M A) (k : A -> M B) : M B :=
  fun log =>
    match m log with
    | (log', Ok x) => k x log'
    | (log', Raise e) => (log', Raise e)
    end.

(** A call to the outside: it is logged, then it answers. *)
Definition call {A : Type} (ev : event) (answer : result A) : M A :=
  fun log => (log ++ [ev], answer).

Fixpoint requests_made (log : list event) : nat :=
  match log with
  | [] => 0
  | Posted _ _ _ :: log' => S (requests_made log')
  | _ :: log' => requests_made log'
  end.

Definition requests_post (e : env) (input api_key : str) : M response :=
  fun log =>
    call (Posted input EMBED_MODEL api_key)
         (provider e (requests_made log) input) log.

Definition of_result {A : Type} (r : result A) : M A :=
  fun log => (log, r).

Local Notation "x <- m ;; k" := (bind m (fun x => k))
  (at level 100, m at next level, k at level 200, right associativity).
Local Notation "m ;;; k" := (bind m (fun _ => k))
  (at level 100, k at level 200, right associativity).

(** Lines 90-111. *)
Definition fetch_embedding (e : env) (input api_key : str)
    : M (list float) :=
  response <- requests_post e input api_key ;;
  if negb (status_code response =? 200)
  then raise (RuntimeError (status_code response) (text response))
  else
    embedding <- of_result (payload_embedding response) ;;
    if negb (len embedding =? DIM)
    then raise (ValueError (len embedding))
    else ret embedding.

(** Lines 169-172: [for idx, chunk in enumerate(chunks)]; [total] is
    [len(chunks)] of the whole list. *)
Fixpoint embed_loop (e : env) (api_key : str) (total idx : Z)
    (chunks : list str) (dataset : list (str * list float))
    : M (list (str * list float)) :=
  match chunks with
  | [] => ret dataset
  | chunk :: rest =>
      call (Printed (EmbeddingChunk (idx + 1) total (len chunk))) (Ok tt) ;;;
      embedding <- fetch_embedding e chunk api_key ;;
      embed_loop e api_key total (idx + 1) rest
                 (dataset ++ [(chunk, embedding)])
  end.

(** Lines 150-178, after [parse_args]. *)
Definition main (e : env) (args : namespace) : M unit :=
  if negb (pdf_exists e) then raise (SystemExit PdfNotFound)
  else
    match OPENAI_API_KEY e with
    | None | Some [] => raise (SystemExit ApiKeyRequired)
    | Some api_key =>
        paragraphs <- of_result (extracted e) ;;
        if negb (truthy paragraphs) then raise (SystemExit NoTextExtracted)
        else
          let chunks :=
            chunk_paragraphs paragraphs
              (max_chars args) (min_chars args) (max_chunks args) in
          if negb (truthy chunks) then raise (SystemExit NoChunksProduced)
          else
            dataset <- embed_loop e api_key (len chunks) 0 chunks [] ;;
            call (MadeDirs (parent (output args))) (mkdir_answer e) ;;;
            let sql := build_sql (title args) (source args) dataset in
            call (WroteText (output args) sql) (write_answer e) ;;;
            call (Printed (WroteChunks (len dataset) (output args))) (Ok tt)
    end.

(** The chunks [main] sends to the provider, one request for each. *)
Definition planned_chunks (e : env) (args : namespace) : list str :=
  match extracted e with
  | Ok paragraphs =>
      chunk_paragraphs paragraphs
        (max_chars args) (min_chars args) (max_chunks args)
  | Raise _ => []
  end.

(** The two failures of a request that [fetch_embedding] tests for. *)
Definition request_fails (answer : result response) : Prop :=
  match answer with
  | Ok r =>
      status_code r <> 200
      \/ exists embedding,
           payload_embedding r = Ok embedding /\ len embedding <> DIM
  | Raise _ => False
  end.

(** A request succeeds when the provider answers with status 200 and a
    vector of [DIM] numbers. *)
Definition request_succeeds (answer : result response) : Prop :=
  exists r embedding,
    answer = Ok r /\ status_code r = 200
    /\ payload_embedding r = Ok embedding /\ len embedding = DIM.

Definition is_write (ev : event) : Prop :=
  match ev with WroteText _ _ => True | _ => False end.

End WithCollaborators.

End Pipeline.

(** ** Vocabulary of the statements *)

(** A paragraph is trimmed when [strip] leaves it alone. *)
Definition trimmed (p : str) : Prop := strip p = p.

(** The test of lines 75 and 85. *)
Definition accepted (min_chars : Z) (buf : list str) : Prop :=
  min_chars <= len (chunk_of buf).

(** The value [buffer_len] has for a given buffer: every paragraph counts
    with one separator. *)
Definition lensum (buf : list str) : Z :=
  fold_right (fun p acc => len p + 1 + acc) 0 buf.

#[global] Instance accepted_dec (min_chars : Z) (buf : list str) :
  Decision (accepted min_chars buf) :=
  Z_le_dec min_chars (len (chunk_of buf)).

(** A chunk list [out] is made of joined runs of [paragraphs] when the
    input can be cut into gap, run, gap, run, ..., rest, with one run that
    is not empty for each chunk, in order, and each chunk is the join of
    its run with single spaces. *)
Definition seg_paragraphs (seg : list str * list str) : list str :=
  fst seg ++ snd seg.

Definition seg_chunk (seg : list str * list str) : str :=
  join [space] (snd seg).

Definition joins_of_runs (paragraphs : list str) (out : list str) : Prop :=
  exists (segs : list (list str * list str)) (rest : list str),
    paragraphs = concat (map seg_paragraphs segs) ++ rest
    /\ Forall (fun seg => snd seg <> []) segs
    /\ out = map seg_chunk segs.

(** ** Invariants used in the proofs *)

(** What the loop guarantees about a buffer by the time it is flushed: it
    is not empty, and if it holds two paragraphs or more, these fit into
    [max_chars] together with their separators. *)
Definition well_formed (max_chars : Z) (buf : list str) : Prop :=
  buf <> [] /\ ((2 <= length buf)%nat -> lensum buf <= max_chars).

(** The loop invariant, at the head of the loop, after the paragraphs
    [consumed] have been read. *)
Record inv (max_chars min_chars max_chunks : Z)
    (consumed : list str) (st : state) (g : ghost) : Prop := Inv {
  inv_chunks : chunks st = map chunk_of (sources g);
  inv_sources : sources g = filter (accepted min_chars) (flushed g);
  inv_consumed : consumed = concat (flushed g) ++ buffer st;
  inv_len : buffer_len st = lensum (buffer st);
  inv_fit : (2 <= length (buffer st))%nat -> lensum (buffer st) <= max_chars;
  inv_flushed : Forall (well_formed max_chars) (flushed g);
  inv_room : chunks st = [] \/ len (chunks st) < max_chunks
}.

(** What holds after a [break], for the whole input [all]. *)
Record stopped (max_chars min_chars max_chunks : Z)
    (all : list str) (st : state) (g : ghost) : Prop := Stopped {
  stop_chunks : chunks st = map chunk_of (sources g);
  stop_sources : sources g = filter (accepted min_chars) (flushed g);
  stop_cover : exists discarded, all = concat (flushed g) ++ discarded;
  stop_buffer : buffer st = [];
  stop_flushed : Forall (well_formed max_chars) (flushed g);
  stop_count : len (chunks st) <= Z.max 1 max_chunks
}.

(** The paragraphs of a buffer from its first non-empty one on. *)
Fixpoint drop_empty (buf : list str) : list str :=
  match buf with
  | [] => []
  | p :: rest => match p with [] => drop_empty rest | _ :: _ => buf end
  end.

(** ** Inputs used in the examples *)

(** A provider that answers the first request with a vector of [DIM]
    zeros and every later one with status 500. *)
Definition provider_down_after_one (n : nat) (input : str)
    : Pipeline.result (@Pipeline.response Z) :=
  match n with
  | O => Pipeline.Ok (Pipeline.Response 200 [] (Pipeline.Ok (repeat 0 1536)))
  | S _ =>
      Pipeline.Ok
        (Pipeline.Response 500 (lit "overloaded")
           (Pipeline.Raise Pipeline.LibraryError))
  end.

Definition env_down_after_one : @Pipeline.env Z :=
  Pipeline.Env true (Some (lit "sk-test"))
    (Pipeline.Ok [times (lit "A") 50; times (lit "B") 80])
    provider_down_after_one (Pipeline.Ok tt) (Pipeline.Ok tt).

Definition args_scenario_two : @Pipeline.namespace str :=
  Pipeline.Args (lit "2014.pdf") (lit "title") (lit "2014.pdf")
    (lit "seed/2014_chunks.sql") 60 10 10.

(** Stand-ins for [Path.parent] and [build_sql] in the examples. *)
Definition parent_stub (file : str) : str := lit "seed".

Definition build_sql_stub (title source : str)
    (dataset : list (str * list Z)) : str :=
  concat (map fst dataset).

(** ** More of Python's string operations *)

Module Text.

(** [s.replace(old, new)] for a pattern [old] of one character: every
    occurrence is replaced, and the text put in is not looked at again. *)
Definition replace_char (old : char) (new : str) (s : str) : str :=
  flat_map (fun c => if (c =? old)%N then new else [c]) s.

(** [s.split()]: the maximal runs of characters that are not white
    space; [cur] is the run being read. *)
Fixpoint split_from (cur : str) (s : str) : list str :=
  match s with
  | [] => if truthy cur then [cur] else []
  | c :: s' =>
      if isspace c
      then (if truthy cur then cur :: split_from [] s' else split_from [] s')
      else split_from (cur ++ [c]) s'
  end.

Definition split (s : str) : list str := split_from [] s.

(** [re.sub(r"\s+", " ", s)]: every maximal run of white space becomes
    one space; [in_run] tells that the previous character was white
    space. *)
Fixpoint sub_spaces_from (in_run : bool) (s : str) : str :=
  match s with
  | [] => []
  | c :: s' =>
      if isspace c
      then (if in_run then sub_spaces_from true s'
            else space :: sub_spaces_from true s')
      else c :: sub_spaces_from false s'
  end.

Definition sub_spaces (s : str) : str := sub_spaces_from false s.

(** The line boundaries of [str.splitlines()]. *)
Definition is_linebreak (c : char) : bool :=
  ((10 <=? c) && (c <=? 13) || (28 <=? c) && (c <=? 30)
   || (c =? 133) || (c =? 8232) || (c =? 8233))%N.

(** [s.splitlines()]: a carriage return followed by a line feed is one
    boundary, and a boundary at the very end opens no further line. *)
Fixpoint splitlines_from (cur : str) (s : str) : list str :=
  match s with
  | [] => if truthy cur then [cur] else []
  | c :: s' =>
      if is_linebreak c
      then
        match s' with
        | d :: s'' =>
            if ((c =? 13) && (d =? 10))%N
            then cur :: splitlines_from [] s''
            else cur :: splitlines_from [] s'
        | [] => cur :: splitlines_from [] s'
        end
      else splitlines_from (cur ++ [c]) s'
  end.

Definition splitlines (s : str) : list str := splitlines_from [] s.

(** A match of [\n\s*\n] that starts at a line feed, [rest] being the
    text after that line feed: the greedy [\s*] gives characters back
    until a line feed follows, so the match ends with the last line feed
    of the white space [rest] starts with.  The result is the number of
    characters of [rest] in the match. *)
Fixpoint blank_match (rest : str) : option nat :=
  match rest with
  | [] => None
  | c :: rest' =>
      if isspace c
      then
        match blank_match rest' with
        | Some n => Some (S n)
        | None => if (c =? 10)%N then Some 1%nat else None
        end
      else None
  end.

(** [re.split(r"\n\s*\n", text)]: the text is read from the left, the
    first position where the pattern matches ends the piece [cur], and
    the [skip] characters of the match are passed over. *)
Fixpoint re_split_from (skip : nat) (cur : str) (s : str) : list str :=
  match s with
  | [] => [cur]
  | c :: s' =>
      match skip with
      | S k => re_split_from k cur s'
      | O =>
          if (c =? 10)%N
          then
            match blank_match s' with
            | Some n => cur :: re_split_from n [] s'
            | None => re_split_from 0 (cur ++ [c]) s'
            end
          else re_split_from 0 (cur ++ [c]) s'
      end
  end.

Definition re_split_blank (text : str) : list str := re_split_from 0 [] text.

(** The class [[0-9IVX]]. *)
Definition is_marker_char (c : char) : bool :=
  ((48 <=? c) && (c <=? 57) || (c =? 73) || (c =? 86) || (c =? 88))%N.

(** The rest of [[0-9IVX]+\.] once one character of the class is read. *)
Fixpoint marker_rest (s : str) : bool :=
  match s with
  | [] => false
  | c :: s' => if is_marker_char c then marker_rest s' else (c =? 46)%N
  end.

(** [re.match(r"^[0-9IVX]+\.", s)] as a truth value. *)
Definition re_match_marker (s : str) : bool :=
  match s with
  | [] => false
  | c :: s' => is_marker_char c && marker_rest s'
  end.

End Text.

(** ** extract_paragraphs (scripts/build_dataset.py)

    The PDF reader is outside the model: the function is given, page by
    page, what [page.extract_text()] returns ([None] included). *)

(** Lines 52-53. *)
Definition normalize_block (block : str) : str :=
  let normalized := join [space] (map strip (Text.splitlines block)) in
  strip (Text.sub_spaces normalized).

(** Lines 51-59: [for block in blocks], on the list [paragraphs]. *)
Fixpoint blocks_loop (blocks : list str) (paragraphs : list str)
    : list str :=
  match blocks with
  | [] => paragraphs
  | block :: rest =>
      let normalized := normalize_block block in
      if negb (truthy normalized) then blocks_loop rest paragraphs
      else if (len normalized <? 25)
              && negb (Text.re_match_marker normalized)
      then blocks_loop rest paragraphs
      else blocks_loop rest (paragraphs ++ [normalized])
  end.

(** Lines 48-50. *)
Definition page_blocks (extracted_text : option str) : list str :=
  let text :=
    match extracted_text with
    | Some t => if truthy t then t else []
    | None => []
    end in
  let text := Text.replace_char 160%N [space] text in
  Text.re_split_blank text.

(** Lines 47-59: [for page in reader.pages]. *)
Fixpoint pages_loop (pages : list (option str)) (paragraphs : list str)
    : list str :=
  match pages with
  | [] => paragraphs
  | page :: rest =>
      pages_loop rest (blocks_loop (page_blocks page) paragraphs)
  end.

Definition extract_paragraphs (pages : list (option str)) : list str :=
  pages_loop pages [].

(** ** sql_escape (scripts/build_dataset.py) *)

Definition quote : char := 39%N.

Definition sql_escape (value : str) : str :=
  Text.replace_char quote [quote; quote] value.

(** ** sanitize_filename (fetch_taxlaw_cases_to_pdf.py) *)

(** The name used when nothing is left of the text. *)
Definition DEFAULT_NAME : str := [54032; 47168]%N.

Definition underscore : str := lit "_".

Definition sanitize_filename (text : str) (max_len : Z) : str :=
  let text := if truthy text then text else DEFAULT_NAME in
  let text :=
    Text.replace_char 58%N underscore
      (Text.replace_char 92%N underscore
         (Text.replace_char 47%N underscore text)) in
  let text :=
    Text.replace_char 34%N underscore
      (Text.replace_char 63%N underscore
         (Text.replace_char 42%N underscore text)) in
  let text :=
    Text.replace_char 124%N underscore
      (Text.replace_char 62%N underscore
         (Text.replace_char 60%N underscore text)) in
  let text := join [space] (Text.split text) in
  let text := slice_to text max_len in
  if truthy text then text else DEFAULT_NAME.

(** ** main (fetch_taxlaw_cases_to_pdf.py)

    Lines 172-216 of [main], after [parse_args].  The archive, the file
    system, the clock and the log file are outside the model: every call
    made to them is recorded in a list of events, and an environment
    fixes what the call does, whether it returns or raises. *)

Module Taxlaw.

(** What the call of [fetch_case] of line 203 does. *)
Inductive outcome : Type :=
| Returned (success : bool)
| Raised          (* an exception that [except Exception] catches *)
| Interrupted.    (* one that it does not catch, as [KeyboardInterrupt] *)

Inductive exception : Type :=
| SystemExit (code : Z)   (* line 174 *)
| Propagated.             (* raised by a call to the outside, not caught *)

Inductive result (A : Type) : Type :=
| Ok (value : A)
| Raise (x : exception).

Arguments Ok {A} value.
Arguments Raise {A} x.

(** The lines given to [log]; the text of the exception in the line of
    line 205 is left out. *)
Inductive message : Type :=
| CaseError (idx total ntst_id : Z)     (* line 205 *)
| CaseSaved (idx total ntst_id : Z)     (* line 208 *)
| CaseSkipped (idx total ntst_id : Z)   (* line 211 *)
| Done (saved skipped total : Z).       (* line 214 *)

(** [range(start, stop)]. *)
Definition range (start stop : Z) : list Z := seqZ start (stop - start).

Record counters : Type := Counters { saved : Z; skipped : Z }.

Section WithClock.

(** The values of [--delay]. *)
Context {float : Type}.

(** The calls made to the outside, in the order they are made. *)
Inductive event : Type :=
| PrintedStartAfterEnd                  (* line 173 *)
| Prepared                              (* lines 176-196 *)
| FetchedCase (ntst_id : Z)             (* line 203 *)
| Logged (m : message) (err : bool)     (* a call of [log] *)
| Slept (delay : float)                 (* line 212 *)
| Closed.                               (* line 216 *)

(** The arguments the loop reads; the others are passed on to
    [fetch_case] and to the set-up of lines 176-196. *)
Record namespace : Type := Args {
  start : Z;
  stop : Z;      (* [args.end] *)
  delay : float
}.

(** Whether a call returns ([true]) or raises. *)
Record env : Type := Env {
  prepare_answer : bool;               (* lines 176-196, as one step *)
  (** The call of [fetch_case] in round [idx], for the case [ntst_id]. *)
  fetch_case : Z -> Z -> outcome;
  log_answer : message -> bool;
  (** [time.sleep(args.delay)] in round [idx]. *)
  sleep_answer : float -> Z -> bool;
  close_answer : bool                  (* line 216 *)
}.

(** Computations that log events and may raise. *)
Definition M (A : Type) : Type := list event -> list event * result A.

Definition ret {A : Type} (x : A) : M A := fun log => (log, Ok x).

Definition raise {A : Type} (x : exception) : M A :=
  fun log => (log, Raise x).

Definition bind {A B : Type} (m : M A) (k : A -> M B) : M B :=
  fun log =>
    match m log with
    | (log', Ok x) => k x log'
    | (log', Raise x) => (log', Raise x)
    end.

(** A call to the outside: it is logged, then it returns or raises. *)
Definition call (ev : event) (returns : bool) : M unit :=
  fun log => (log ++ [ev], if returns then Ok tt else Raise Propagated).

Local Notation "x <- m ;; k" := (bind m (fun x => k))
  (at level 100, m at next level, k at level 200, right associativity).
Local Notation "m ;;; k" := (bind m (fun _ => k))
  (at level 100, k at level 200, right associativity).

(** Lines 190-194, called with a message: the message is printed and
    written to the log file. *)
Definition log (e : env) (m : message) (err : bool) : M unit :=
  call (Logged m err) (log_answer e m).

(** Lines 201-205: the call inside [try], with [success = False]
    before it. *)
Definition try_fetch_case (e : env) (idx total ntst_id : Z) : M bool :=
  fun events =>
    let events := events ++ [FetchedCase ntst_id] in
    match fetch_case e idx ntst_id with
    | Returned success => (events, Ok success)
    | Raised =>
        (log e (CaseError idx total ntst_id) true ;;; ret false) events
    | Interrupted => (events, Raise Propagated)
    end.

(** Lines 201-212: the loop body. *)
Definition body (e : env) (args : namespace) (total idx ntst_id : Z)
    (c : counters) : M counters :=
  success <- try_fetch_case e idx total ntst_id ;;
  c <- (if success : bool
        then
          let c := Counters (saved c + 1) (skipped c) in
          log e (CaseSaved idx total ntst_id) false ;;; ret c
        else
          let c := Counters (saved c) (skipped c + 1) in
          log e (CaseSkipped idx total ntst_id) false ;;; ret c) ;;
  call (Slept (delay args)) (sleep_answer e (delay args) idx) ;;;
  ret c.

(** Lines 200-212: [for idx, ntst_id in enumerate(range(...), start=1)]. *)
Fixpoint cases_loop (e : env) (args : namespace) (total idx : Z)
    (ids : list Z) (c : counters) : M counters :=
  match ids with
  | [] => ret c
  | ntst_id :: rest =>
      c <- body e args total idx ntst_id c ;;
      cases_loop e args total (idx + 1) rest c
  end.

(** Lines 172-216, after [parse_args]. *)
Definition main (e : env) (args : namespace) : M unit :=
  if start args >? stop args
  then call PrintedStartAfterEnd true ;;; raise (SystemExit 1)
  else
    call Prepared (prepare_answer e) ;;;
    let total := stop args - start args + 1 in
    c <- cases_loop e args total 1
           (range (start args) (stop args + 1)) (Counters 0 0) ;;
    log e (Done (saved c) (skipped c) total) false ;;;
    call Closed (close_answer e).

(** The number of calls that return [True], in rounds [idx], [idx + 1],
    ... for the cases [ids]. *)
Fixpoint successes (e : env) (idx : Z) (ids : list Z) : Z :=
  match ids with
  | [] => 0
  | ntst_id :: rest =>
      (match fetch_case e idx ntst_id with Returned true => 1 | _ => 0 end)
      + successes e (idx + 1) rest
  end.

(** The cases [fetch_case] was called for, in the order of the calls. *)
Fixpoint fetched (events : list event) : list Z :=
  match events with
  | [] => []
  | FetchedCase ntst_id :: events' => ntst_id :: fetched events'
  | _ :: events' => fetched events'
  end.

Definition is_done (ev : event) : Prop :=
  match ev with Logged (Done _ _ _) _ => True | _ => False end.

(** No call escapes: [fetch_case] returns or raises an exception that is
    caught, and the set-up, [log] and [time.sleep] return. *)
Definition undisturbed (e : env) (args : namespace) : Prop :=
  prepare_answer e = true
  /\ (forall idx ntst_id, fetch_case e idx ntst_id <> Interrupted)
  /\ (forall m, log_answer e m = true)
  /\ (forall idx, sleep_answer e (delay args) idx = true).

End WithClock.

Arguments event : clear implicits.
Arguments namespace : clear implicits.
Arguments env : clear implicits.

(** An archive that has every third case and raises for one case in
    three. *)
Definition every_third (idx ntst_id : Z) : outcome :=
  if (ntst_id mod 3 =? 0) then Returned true
  else if (ntst_id mod 3 =? 1) then Returned false
  else Raised.

(** Around it, delays in whole seconds: [time.sleep] raises [ValueError]
    for a negative one; every other call returns. *)
Definition env_every_third : env Z :=
  Env true every_third (fun _ => true) (fun delay _ => 0 <=? delay) true.

End Taxlaw.

(** ** Vocabulary of the further statements *)

(** Every quote of the text stands in a pair of two: read from the left,
    a quote is followed at once by its second half. *)
Inductive quotes_paired : str -> Prop :=
| paired_nil : quotes_paired []
| paired_other c s : c <> quote -> quotes_paired s -> quotes_paired (c :: s)
| paired_quotes s : quotes_paired s -> quotes_paired (quote :: quote :: s).

(** What a reader of an SQL string literal makes of its inside: two
    quotes in a row stand for one. *)
Fixpoint undouble (s : str) : str :=
  match s with
  | [] => []
  | c :: s' =>
      match s' with
      | d :: s'' =>
          if ((c =? quote) && (d =? quote))%N then quote :: undouble s''
          else c :: undouble s'
      | [] => [c]
      end
  end.

(** The number of quotes of a text. *)
Definition count_quotes (s : list char) : Z :=
  len (filter (fun c => c = quote) s).

(** Every white-space character of the text is a space (U+0020), and the
    character after it, if there is one, is not white space. *)
Fixpoint single_spaced (s : str) : bool :=
  match s with
  | [] => true
  | c :: s' =>
      (negb (isspace c)
       || (c =? space)%N
          && match s' with [] => true | d :: _ => negb (isspace d) end)
      && single_spaced s'
  end.

(** What an embedding loop logs while the requests succeed: for each
    chunk the progress line, then the request. *)
Fixpoint embedding_events {path : Type} (api_key : str) (total idx : Z)
    (chunks : list str) : list (@Pipeline.event path) :=
  match chunks with
  | [] => []
  | chunk :: rest =>
      Pipeline.Printed (Pipeline.EmbeddingChunk (idx + 1) total (len chunk))
      :: Pipeline.Posted chunk Pipeline.EMBED_MODEL api_key
      :: embedding_events api_key total (idx + 1) rest
  end.

(** The texts sent to the provider, in the order of the requests. *)
Fixpoint posted_inputs {path : Type} (log : list (@Pipeline.event path))
    : list str :=
  match log with
  | [] => []
  | Pipeline.Posted input _ _ :: log' => input :: posted_inputs log'
  | _ :: log' => posted_inputs log'
  end.

(** A provider that answers every request with a vector of [DIM] zeros,
    and an environment around it. *)
Definition provider_up (n : nat) (input : str)
    : Pipeline.result (@Pipeline.response Z) :=
  Pipeline.Ok (Pipeline.Response 200 [] (Pipeline.Ok (repeat 0 1536))).

Definition env_up : @Pipeline.env Z :=
  Pipeline.Env true (Some (lit "sk-test"))
    (Pipeline.Ok [times (lit "A") 50; times (lit "B") 80])
    provider_up (Pipeline.Ok tt) (Pipeline.Ok tt).

(** An environment in which the directory of the output file cannot be
    made. *)
Definition env_no_directory : @Pipeline.env Z :=
  Pipeline.Env true (Some (lit "sk-test"))
    (Pipeline.Ok [times (lit "A") 50; times (lit "B") 80])
    provider_up (Pipeline.Raise Pipeline.LibraryError) (Pipeline.Ok tt).

(** The cuts between flushed buffers are greedy: a buffer [b] that is
    followed in the input by a paragraph [p] could not take [p] in, since
    [b], a separator and [p] are more than [max_chars] characters.  [next]
    is the input after the buffers. *)
Fixpoint greedy_cuts (max_chars : Z) (bufs : list (list str))
    (next : list str) : Prop :=
  match bufs with
  | [] => True
  | b :: rest =>
      match head (concat rest ++ next) with
      | None => True
      | Some p => lensum b + len p + 1 > max_chars
      end
      /\ greedy_cuts max_chars rest next
  end.

(** The test a normalised block has to pass to become a paragraph
    (lines 54-58). *)
Definition kept (normalized : str) : bool :=
  truthy normalized
  && negb ((len normalized <? 25) && negb (Text.re_match_marker normalized)).

(** A page with a section marker and one paragraph, and an environment
    whose PDF reader gives that page. *)
Definition page_example : str :=
  lit "1. Scope" ++ [10; 32; 10]%N
  ++ lit "This  paragraph is long" ++ [10]%N ++ lit "enough to be kept.".

Definition env_page : @Pipeline.env Z :=
  Pipeline.Env true (Some (lit "sk-test"))
    (Pipeline.Ok (extract_paragraphs [Some page_example]))
    provider_up (Pipeline.Ok tt) (Pipeline.Ok tt).

(** The first character of the text, if there is one, is not white
    space. *)
Definition head_ok (s : str) : bool :=
  match s with [] => true | d :: _ => negb (isspace d) end.

(** The characters [sanitize_filename] replaces. *)
Definition forbidden_in_filename (c : char) : bool :=
  ((c =? 47) || (c =? 92) || (c =? 58) || (c =? 42) || (c =? 63)
   || (c =? 34) || (c =? 60) || (c =? 62) || (c =? 124))%N.

(* ================================================================== *)
(** * Proofs *)

(** ** Lengths *)


Lemma len_nonneg {A : Type} (l : list A) : 0 <= len l.
Proof. unfold len. lia. Qed.

Lemma len_app {A : Type} (l k : list A) : len (l ++ k) = len l + len k.
Proof. unfold len. rewrite length_app. lia. Qed.

Lemma len_snoc {A : Type} (l : list A) (x : A) : len (l ++ [x]) = len l + 1.
Proof. rewrite len_app. reflexivity. Qed.

Lemma truthy_true {A : Type} (l : list A) : truthy l = true <-> l <> [].
Proof. destruct l; simpl; split; congruence. Qed.

Lemma truthy_false {A : Type} (l : list A) : truthy l = false <-> l = [].
Proof. destruct l; simpl; split; congruence. Qed.

Lemma lensum_nonneg buf : 0 <= lensum buf.
Proof.
  induction buf as [|p buf IH]; simpl; [lia|].
  pose proof (len_nonneg p). lia.
Qed.

Lemma lensum_snoc buf p : lensum (buf ++ [p]) = lensum buf + (len p + 1).
Proof. induction buf as [|q buf IH]; simpl; lia. Qed.

Lemma len_join buf : buf <> [] -> len (join [space] buf) = lensum buf - 1.
Proof.
  induction buf as [|p buf IH]; [congruence|]. intros _.
  destruct buf as [|q buf].
  - simpl. lia.
  - change (join [space] (p :: q :: buf))
      with (p ++ [space] ++ join [space] (q :: buf)).
    rewrite !len_app, IH by discriminate.
    change (lensum (p :: q :: buf)) with (len p + 1 + lensum (q :: buf)).
    change (len [space]) with 1. lia.
Qed.

(** ** strip only removes characters *)

Lemma lstrip_length s : (length (lstrip s) <= length s)%nat.
Proof.
  induction s as [|c s IH]; simpl; [lia|].
  destruct (isspace c); simpl; lia.
Qed.

Lemma rstrip_length s : (length (rstrip s) <= length s)%nat.
Proof.
  unfold rstrip. rewrite length_rev.
  etransitivity; [apply lstrip_length|]. rewrite length_rev. lia.
Qed.

Lemma len_strip s : len (strip s) <= len s.
Proof.
  unfold strip, len.
  pose proof (rstrip_length (lstrip s)). pose proof (lstrip_length s). lia.
Qed.

Lemma len_chunk_of buf : buf <> [] -> len (chunk_of buf) <= lensum buf - 1.
Proof.
  intros Hne. unfold chunk_of.
  etransitivity; [apply len_strip|]. rewrite len_join by assumption. lia.
Qed.

(** ** Slices *)

Lemma slice_to_all {A : Type} (l : list A) (stop : Z) :
  len l <= stop -> slice_to l stop = l.
Proof.
  intros H. unfold slice_to. pose proof (len_nonneg l).
  destruct (Z.ltb_spec stop 0); [lia|].
  apply take_ge. unfold len in *. lia.
Qed.

Lemma slice_to_short {A : Type} (l : list A) (stop : Z) :
  stop <= 0 -> len l <= 1 -> slice_to l stop = [].
Proof.
  intros H1 H2. unfold slice_to.
  destruct (Z.ltb_spec stop 0).
  - replace (Z.to_nat (len l + stop)) with 0%nat by lia. reflexivity.
  - replace stop with 0 by lia. reflexivity.
Qed.

Lemma slice_to_map {A B : Type} (f : A -> B) (l : list A) (stop : Z) :
  slice_to (map f l) stop = map f (slice_to l stop).
Proof.
  unfold slice_to, len. rewrite length_map.
  destruct (stop <? 0); symmetry; apply (fmap_take f).
Qed.

Lemma len_slice_to {A : Type} (l : list A) (stop : Z) :
  0 <= stop -> len (slice_to l stop) <= stop.
Proof.
  intros H. unfold slice_to. destruct (Z.ltb_spec stop 0); [lia|].
  unfold len. rewrite length_take. lia.
Qed.

(** ** The loop invariant *)

Section Invariant.

Variables max_chars min_chars max_chunks : Z.

Local Abbreviation inv := (inv max_chars min_chars max_chunks).
Local Abbreviation stopped := (stopped max_chars min_chars max_chunks).
Local Abbreviation body := (body max_chars min_chars max_chunks).
Local Abbreviation for_loop := (for_loop max_chars min_chars max_chunks).
Local Abbreviation ghost_loop := (ghost_loop max_chars min_chars max_chunks).

Lemma inv_initial : inv [] initial no_ghost.
Proof. constructor; simpl; auto; lia. Qed.

Lemma flush_sources st g :
  chunks st = map chunk_of (sources g) ->
  flush min_chars st = map chunk_of (sources (note_flush min_chars st g)).
Proof.
  intros H. unfold flush, note_flush; simpl.
  destruct (len (chunk_of (buffer st)) >=? min_chars); [|assumption].
  rewrite map_app, H. reflexivity.
Qed.

Lemma note_flush_sources st g :
  sources g = filter (accepted min_chars) (flushed g) ->
  sources (note_flush min_chars st g)
  = filter (accepted min_chars) (flushed (note_flush min_chars st g)).
Proof.
  intros H. unfold note_flush; simpl. rewrite filter_app, <- H.
  destruct (Z.geb_spec (len (chunk_of (buffer st))) min_chars) as [Hge|Hlt].
  - rewrite filter_cons_True by (unfold accepted; lia). reflexivity.
  - rewrite filter_cons_False by (unfold accepted; lia).
    simpl. rewrite app_nil_r. reflexivity.
Qed.

Lemma len_flush st :
  len (chunks st) <= len (flush min_chars st) <= len (chunks st) + 1.
Proof.
  unfold flush. destruct (_ >=? _); [rewrite len_snoc|]; lia.
Qed.

Lemma note_flush_flushed st g :
  buffer st <> [] ->
  ((2 <= length (buffer st))%nat -> lensum (buffer st) <= max_chars) ->
  Forall (well_formed max_chars) (flushed g) ->
  Forall (well_formed max_chars) (flushed (note_flush min_chars st g)).
Proof.
  intros Hne Hfit Hall. unfold note_flush; simpl.
  apply Forall_app; split; [assumption|].
  constructor; [split; assumption | constructor].
Qed.

Lemma concat_snoc {A : Type} (ls : list (list A)) (l : list A) :
  concat (ls ++ [l]) = concat ls ++ l.
Proof. rewrite concat_app. simpl. rewrite app_nil_r. reflexivity. Qed.

Lemma body_inv consumed st g paragraph :
  inv consumed st g ->
  match body st paragraph with
  | Next st' =>
      inv (consumed ++ [paragraph]) st'
          (ghost_body max_chars min_chars st paragraph g)
  | Break st' =>
      forall rest,
        stopped (consumed ++ paragraph :: rest) st'
                (ghost_body max_chars min_chars st paragraph g)
  end.
Proof.
  intros [Hch Hsrc Hcons Hlen Hfit Hfl Hroom].
  unfold body, ghost_body.
  destruct (truthy (buffer st)) eqn:Hbuf; simpl.
  - apply truthy_true in Hbuf.
    destruct (Z.gtb_spec (buffer_len st + len paragraph + 1) max_chars)
      as [Hover|Hfits].
    + pose proof (len_flush st) as Hlf.
      destruct (Z.geb_spec (len (flush min_chars st)) max_chunks)
        as [Hfull|Hfree].
      * intros rest. constructor; simpl.
        -- apply flush_sources, Hch.
        -- apply note_flush_sources, Hsrc.
        -- exists (paragraph :: rest).
           rewrite concat_snoc, Hcons, <- app_assoc. reflexivity.
        -- reflexivity.
        -- apply note_flush_flushed; assumption.
        -- destruct Hroom as [Hnil|Hlt]; [rewrite Hnil in Hlf; simpl in Hlf|];
             unfold len in *; simpl in *; lia.
      * constructor; simpl.
        -- apply flush_sources, Hch.
        -- apply note_flush_sources, Hsrc.
        -- rewrite concat_snoc, Hcons, <- app_assoc. reflexivity.
        -- lia.
        -- lia.
        -- apply note_flush_flushed; assumption.
        -- right. lia.
    + constructor; simpl; try assumption.
      * rewrite Hcons, <- app_assoc. reflexivity.
      * rewrite lensum_snoc. lia.
      * intros _. rewrite lensum_snoc. lia.
  - apply truthy_false in Hbuf.
    constructor; simpl; try assumption.
    + rewrite Hcons, <- app_assoc. reflexivity.
    + rewrite lensum_snoc. lia.
    + rewrite Hbuf. simpl. lia.
Qed.

Lemma for_loop_inv paragraphs : forall consumed st g,
  inv consumed st g ->
  match for_loop paragraphs st with
  | Next st' => inv (consumed ++ paragraphs) st' (ghost_loop paragraphs st g)
  | Break st' =>
      stopped (consumed ++ paragraphs) st' (ghost_loop paragraphs st g)
  end.
Proof.
  induction paragraphs as [|paragraph rest IH]; intros consumed st g Hinv.
  - simpl. rewrite app_nil_r. assumption.
  - pose proof (body_inv consumed st g paragraph Hinv) as Hbody.
    simpl. destruct (body st paragraph) as [st'|st'].
    + specialize (IH _ _ _ Hbody).
      rewrite <- app_assoc in IH. exact IH.
    + apply Hbody.
Qed.

End Invariant.

(** ** What a whole run guarantees *)

Lemma run_summary paragraphs max_chars min_chars max_chunks :
  let g := ghost_of paragraphs max_chars min_chars max_chunks in
  chunk_paragraphs paragraphs max_chars min_chars max_chunks
  = map chunk_of (chunk_sources paragraphs max_chars min_chars max_chunks)
  /\ sources g = filter (accepted min_chars) (flushed g)
  /\ (exists discarded, paragraphs = concat (flushed g) ++ discarded)
  /\ Forall (well_formed max_chars) (flushed g)
  /\ len (sources g) <= Z.max 1 max_chunks.
Proof.
  unfold chunk_paragraphs, chunk_sources, ghost_of, finish, ghost_finish.
  pose proof (for_loop_inv max_chars min_chars max_chunks paragraphs
                [] initial no_ghost
                (inv_initial max_chars min_chars max_chunks)) as H.
  simpl app in H.
  destruct (for_loop max_chars min_chars max_chunks paragraphs initial)
    as [st|st]; simpl state_of.
  - destruct H as [Hch Hsrc Hcons Hlen Hfit Hfl Hroom].
    set (g := ghost_loop _ _ _ _ _ _) in *.
    destruct (truthy (buffer st)) eqn:Hbuf; simpl.
    + apply truthy_true in Hbuf.
      destruct (Z.ltb_spec (len (chunks st)) max_chunks) as [Hlt|Hge].
      * rewrite <- slice_to_map.
        rewrite <- (flush_sources min_chars st g Hch).
        split; [reflexivity|].
        split; [apply note_flush_sources, Hsrc|].
        split; [exists []; simpl; rewrite concat_snoc, app_nil_r; exact Hcons|].
        split; [apply note_flush_flushed; assumption|].
        pose proof (len_flush min_chars st) as Hlf.
        rewrite (flush_sources min_chars st g Hch) in Hlf.
        unfold len in *. rewrite length_map in Hlf. lia.
      * rewrite <- slice_to_map, <- Hch.
        split; [reflexivity|]. split; [assumption|].
        split; [exists (buffer st); exact Hcons|].
        split; [assumption|].
        rewrite Hch in Hroom, Hge. unfold len in *.
        rewrite length_map in Hge.
        destruct Hroom as [Hnil|Hlt].
        -- apply (f_equal (@length _)) in Hnil.
           rewrite length_map in Hnil. simpl in Hnil. lia.
        -- rewrite length_map in Hlt. lia.
    + rewrite <- slice_to_map, <- Hch.
      split; [reflexivity|]. split; [assumption|].
      split; [exists (buffer st); exact Hcons|].
      split; [assumption|].
      rewrite Hch in Hroom. unfold len in *.
      destruct Hroom as [Hnil|Hlt].
      * apply (f_equal (@length _)) in Hnil.
        rewrite length_map in Hnil. simpl in Hnil. lia.
      * rewrite length_map in Hlt. lia.
  - destruct H as [Hch Hsrc Hcov Hbuf Hfl Hcount].
    rewrite Hbuf. simpl.
    rewrite <- slice_to_map, <- Hch.
    split; [reflexivity|]. split; [assumption|].
    split; [assumption|]. split; [assumption|].
    rewrite Hch in Hcount. unfold len in *.
    rewrite length_map in Hcount. exact Hcount.
Qed.

(** ** Facts about the sources of the returned chunks *)

Lemma sublist_concat {A : Type} (l1 l2 : list (list A)) :
  sublist l1 l2 -> sublist (concat l1) (concat l2).
Proof.
  induction 1 as [|x l1 l2 _ IH|x l1 l2 _ IH]; simpl.
  - constructor.
  - apply sublist_app; [reflexivity | exact IH].
  - apply sublist_inserts_l, IH.
Qed.

Lemma slice_to_sublist {A : Type} (l : list A) (stop : Z) :
  sublist (slice_to l stop) l.
Proof. unfold slice_to. destruct (stop <? 0); apply sublist_take. Qed.

Lemma chunk_sources_flushed paragraphs max_chars min_chars max_chunks :
  sublist (chunk_sources paragraphs max_chars min_chars max_chunks)
          (flushed_buffers paragraphs max_chars min_chars max_chunks).
Proof.
  destruct (run_summary paragraphs max_chars min_chars max_chunks)
    as (_ & Hsrc & _).
  unfold chunk_sources, flushed_buffers.
  etransitivity; [apply slice_to_sublist|].
  rewrite Hsrc. apply sublist_filter.
Qed.

Lemma chunk_sources_sublist paragraphs max_chars min_chars max_chunks :
  sublist (concat (chunk_sources paragraphs max_chars min_chars max_chunks))
          paragraphs.
Proof.
  destruct (run_summary paragraphs max_chars min_chars max_chunks)
    as (_ & _ & [discarded Hcov] & _).
  rewrite Hcov at 2. apply sublist_inserts_r, sublist_concat.
  apply chunk_sources_flushed.
Qed.

Lemma source_facts paragraphs max_chars min_chars max_chunks src :
  In src (chunk_sources paragraphs max_chars min_chars max_chunks) ->
  well_formed max_chars src
  /\ accepted min_chars src
  /\ (forall p, In p src -> In p paragraphs).
Proof.
  intros Hin. apply list_elem_of_In in Hin.
  destruct (run_summary paragraphs max_chars min_chars max_chunks)
    as (_ & Hsrc & _ & Hwf & _).
  split; [|split].
  - eapply (proj1 (Forall_forall _ _)); [exact Hwf|].
    eapply elem_of_sublist; [exact Hin | apply chunk_sources_flushed].
  - assert (src ∈ sources
              (ghost_of paragraphs max_chars min_chars max_chunks)) as H.
    { eapply elem_of_sublist; [exact Hin | apply slice_to_sublist]. }
    rewrite Hsrc in H. apply list_elem_of_filter in H. apply H.
  - intros p Hp. apply list_elem_of_In.
    eapply elem_of_sublist; [|apply chunk_sources_sublist].
    apply list_elem_of_In, in_concat. exists src.
    split; [apply list_elem_of_In, Hin | exact Hp].
Qed.

Lemma chunk_of_single p : trimmed p -> chunk_of [p] = p.
Proof. intros H. exact H. Qed.

Lemma single_or_many {A : Type} (l : list A) :
  l <> [] -> (exists x, l = [x]) \/ (2 <= length l)%nat.
Proof.
  destruct l as [|x [|y l]]; simpl; [congruence | eauto | right; lia].
Qed.

(** ** The statements *)

(** For trimmed input paragraphs, a returned chunk has at most
    [max_chars] characters, or it was built from one paragraph alone, is
    that paragraph unchanged, and the paragraph is an input paragraph
    longer than [max_chars]. *)
Lemma bounded_or_single paragraphs max_chars min_chars max_chunks :
  Forall trimmed paragraphs ->
  Forall (fun src =>
        len (chunk_of src) <= max_chars
        \/ exists p, src = [p] /\ chunk_of src = p
                     /\ In p paragraphs /\ max_chars < len p)
       (chunk_sources paragraphs max_chars min_chars max_chunks).
Proof.
  intros Htrim.
  apply Forall_forall. intros src Hin. apply list_elem_of_In in Hin.
  destruct (source_facts _ _ _ _ _ Hin) as ([Hne Hfit] & _ & Hsub).
  destruct (single_or_many src Hne) as [[p ->]|Hmany].
  - assert (In p paragraphs) as Hp by (apply Hsub; left; reflexivity).
    assert (trimmed p) as Htp.
    { eapply (proj1 (Forall_forall _ _)); [exact Htrim|].
      apply list_elem_of_In, Hp. }
    rewrite (chunk_of_single p Htp).
    destruct (Z.le_gt_cases (len p) max_chars); [left; assumption|].
    right. exists p. auto.
  - left. pose proof (len_chunk_of src Hne). specialize (Hfit Hmany). lia.
Qed.

(** Scenarios 1, 3 and 4 of the design document, as checks of the
    model. *)
Example scenario_joined :
  chunk_paragraphs [times (lit "A") 50; times (lit "B") 50] 120 10 10
  = [times (lit "A") 50 ++ lit " " ++ times (lit "B") 50].
Proof. vm_compute. reflexivity. Qed.

Example scenario_too_short :
  chunk_paragraphs [times (lit "x") 5] 100 10 10 = [].
Proof. vm_compute. reflexivity. Qed.

Example scenario_max_chunks :
  chunk_paragraphs (repeat (times (lit "x") 30) 50) 40 10 5
  = repeat (times (lit "x") 30) 5.
Proof. vm_compute. reflexivity. Qed.

(** C5.  Scenario 2 of the design document: the first paragraph is
    flushed when the second would overflow the buffer, the second is
    flushed at the end of the input. *)
Theorem scenario_oversized_second :
  chunk_paragraphs [times (lit "A") 50; times (lit "B") 80] 60 10 10
  = [times (lit "A") 50; times (lit "B") 80].
Proof. vm_compute. reflexivity. Qed.

(** C4.  The paragraphs behind the returned chunks, chunk after chunk in
    output order, are a subsequence of the input paragraphs. *)
Theorem sources_are_subsequence paragraphs max_chars min_chars max_chunks :
  chunk_paragraphs paragraphs max_chars min_chars max_chunks
  = map chunk_of (chunk_sources paragraphs max_chars min_chars max_chunks)
  /\ sublist (concat (chunk_sources paragraphs max_chars min_chars max_chunks))
             paragraphs.
Proof. split; [apply run_summary | apply chunk_sources_sublist]. Qed.

(** C3.  Every returned chunk has at least [min_chars] characters.  The
    buffers that were flushed are consecutive pieces of the input, and the
    returned chunks are built from those of them whose text reaches
    [min_chars], one chunk for one buffer: a buffer that fails the test is
    behind no chunk, and none of its paragraphs is carried into another. *)
Theorem short_buffers_dropped paragraphs max_chars min_chars max_chunks :
  Forall (fun chunk => min_chars <= len chunk)
         (chunk_paragraphs paragraphs max_chars min_chars max_chunks)
  /\ (exists discarded,
        paragraphs
        = concat (flushed_buffers paragraphs max_chars min_chars max_chunks)
          ++ discarded)
  /\ chunk_sources paragraphs max_chars min_chars max_chunks
     = slice_to (filter (accepted min_chars)
                   (flushed_buffers paragraphs max_chars min_chars max_chunks))
                max_chunks
  /\ chunk_paragraphs paragraphs max_chars min_chars max_chunks
     = map chunk_of (chunk_sources paragraphs max_chars min_chars max_chunks).
Proof.
  destruct (run_summary paragraphs max_chars min_chars max_chunks)
    as (Hout & Hsrc & Hcov & _).
  split; [|split; [exact Hcov|split; [|exact Hout]]].
  - rewrite Hout. apply Forall_forall. intros chunk Hin.
    apply list_elem_of_In, in_map_iff in Hin. destruct Hin as (src & <- & Hin).
    apply (source_facts _ _ _ _ _ Hin).
  - unfold chunk_sources, flushed_buffers. rewrite <- Hsrc. reflexivity.
Qed.

(** C9.  A returned chunk built from two paragraphs or more has at most
    [max_chars - 1] characters.  If the input paragraphs are trimmed, a
    returned chunk of exactly [max_chars] characters was built from one
    paragraph alone and is that paragraph. *)
Theorem joined_chunk_below_max paragraphs max_chars min_chars max_chunks :
  Forall trimmed paragraphs ->
  chunk_paragraphs paragraphs max_chars min_chars max_chunks
  = map chunk_of (chunk_sources paragraphs max_chars min_chars max_chunks)
  /\ Forall (fun src =>
        ((2 <= length src)%nat -> len (chunk_of src) <= max_chars - 1)
        /\ (len (chunk_of src) = max_chars ->
            exists p, src = [p] /\ chunk_of src = p /\ In p paragraphs))
       (chunk_sources paragraphs max_chars min_chars max_chunks).
Proof.
  intros Htrim.
  split; [apply run_summary|].
  apply Forall_forall. intros src Hin. apply list_elem_of_In in Hin.
  destruct (source_facts _ _ _ _ _ Hin) as ([Hne Hfit] & _ & Hsub).
  pose proof (len_chunk_of src Hne) as Hlen.
  split.
  - intros Hmany. specialize (Hfit Hmany). lia.
  - intros Hexact.
    destruct (single_or_many src Hne) as [[p ->]|Hmany].
    + assert (In p paragraphs) as Hp by (apply Hsub; left; reflexivity).
      exists p. split; [reflexivity|]. split; [|exact Hp].
      apply chunk_of_single.
      eapply (proj1 (Forall_forall _ _)); [exact Htrim|].
      apply list_elem_of_In, Hp.
    + specialize (Hfit Hmany). lia.
Qed.

(** With [max_chars = 6]: "ab cd" stays one below the bound, "efghij"
    meets it alone. *)
Lemma joined_chunk_below_max_witness :
  Forall trimmed [lit "ab"; lit "cd"; lit "efghij"]
  /\ chunk_paragraphs [lit "ab"; lit "cd"; lit "efghij"] 6 1 10
     = [lit "ab cd"; lit "efghij"]
  /\ Forall (fun src =>
        ((2 <= length src)%nat -> len (chunk_of src) <= 6 - 1)
        /\ (len (chunk_of src) = 6 ->
            exists p, src = [p] /\ chunk_of src = p
              /\ In p [lit "ab"; lit "cd"; lit "efghij"]))
       (chunk_sources [lit "ab"; lit "cd"; lit "efghij"] 6 1 10).
Proof.
  assert (Forall trimmed [lit "ab"; lit "cd"; lit "efghij"])
    as Htrim by (repeat constructor).
  split; [exact Htrim|]. split; [reflexivity|].
  apply (joined_chunk_below_max _ 6 1 10 Htrim).
Defined.


Lemma body_break max_chars min_chars max_chunks st paragraph st' :
  body max_chars min_chars max_chunks st paragraph = Break st' ->
  buffer st <> []
  /\ max_chunks <= len (flush min_chars st)
  /\ st' = State (flush min_chars st) [] 0.
Proof.
  unfold body.
  destruct (truthy (buffer st)) eqn:Hbuf; simpl; [|discriminate].
  destruct (_ >? _); [|discriminate].
  destruct (Z.geb_spec (len (flush min_chars st)) max_chunks);
    [|discriminate].
  intros [= <-]. apply truthy_true in Hbuf. auto.
Qed.




(** ** Paragraphs longer than max_chars *)

Lemma lensum_in buf p : In p buf -> len p + 1 <= lensum buf.
Proof.
  induction buf as [|q buf IH]; simpl; [tauto|].
  intros [->|Hin].
  - pose proof (lensum_nonneg buf). lia.
  - specialize (IH Hin). pose proof (len_nonneg q). lia.
Qed.

(** A paragraph longer than [max_chars] shares its buffer with no
    other paragraph. *)
Lemma oversized_alone max_chars buf p :
  well_formed max_chars buf -> In p buf -> max_chars < len p -> buf = [p].
Proof.
  intros [Hne Hfit] Hin Hlong.
  destruct (single_or_many buf Hne) as [[q ->]|Hmany].
  - destruct Hin as [->|[]]. reflexivity.
  - specialize (Hfit Hmany). pose proof (lensum_in buf p Hin). lia.
Qed.

Lemma for_loop_break_full max_chars min_chars max_chunks paragraphs :
  forall st st',
    for_loop max_chars min_chars max_chunks paragraphs st = Break st' ->
    max_chunks <= len (chunks st').
Proof.
  induction paragraphs as [|paragraph rest IH]; intros st st'; simpl;
    [discriminate|].
  destruct (body max_chars min_chars max_chunks st paragraph)
    as [st1|st1] eqn:Hb.
  - apply IH.
  - intros [= <-].
    destruct (body_break _ _ _ _ _ _ Hb) as (_ & Hfull & ->). exact Hfull.
Qed.

(** Paragraphs are left out of every flushed buffer only when the
    output is full. *)
Lemma discarded_when_full paragraphs max_chars min_chars max_chunks :
  exists discarded,
    paragraphs
    = concat (flushed_buffers paragraphs max_chars min_chars max_chunks)
      ++ discarded
    /\ (discarded <> [] ->
        max_chunks
        <= len (sources (ghost_of paragraphs max_chars min_chars max_chunks))).
Proof.
  unfold flushed_buffers, ghost_of, ghost_finish.
  pose proof (for_loop_inv max_chars min_chars max_chunks paragraphs
                [] initial no_ghost
                (inv_initial max_chars min_chars max_chunks)) as H.
  simpl app in H.
  destruct (for_loop max_chars min_chars max_chunks paragraphs initial)
    as [st|st] eqn:Hloop; simpl state_of.
  - destruct H as [Hch Hsrc Hcons _ _ _ _].
    set (g := ghost_loop _ _ _ _ _ _) in *.
    destruct (truthy (buffer st)) eqn:Hbuf; simpl.
    + destruct (Z.ltb_spec (len (chunks st)) max_chunks) as [Hlt|Hge].
      * exists []. split; [|congruence].
        unfold note_flush; simpl.
        rewrite concat_snoc, app_nil_r. exact Hcons.
      * exists (buffer st). split; [exact Hcons|]. intros _.
        rewrite Hch in Hge. unfold len in *.
        rewrite length_map in Hge. exact Hge.
    + apply truthy_false in Hbuf. exists []. split; [|congruence].
      rewrite Hcons, Hbuf. reflexivity.
  - pose proof (for_loop_break_full _ _ _ _ _ _ Hloop) as Hfull.
    destruct H as [Hch _ [discarded Hcov] Hbuf _ _].
    rewrite Hbuf. simpl. exists discarded. split; [exact Hcov|]. intros _.
    rewrite Hch in Hfull. unfold len in *.
    rewrite length_map in Hfull. exact Hfull.
Qed.

(** With room for one chunk at least, nothing is cut off by the final
    slice. *)
Lemma chunk_sources_all paragraphs max_chars min_chars max_chunks :
  0 < max_chunks ->
  chunk_sources paragraphs max_chars min_chars max_chunks
  = filter (accepted min_chars)
           (flushed_buffers paragraphs max_chars min_chars max_chunks).
Proof.
  intros Hroom.
  destruct (run_summary paragraphs max_chars min_chars max_chunks)
    as (_ & Hsrc & _ & _ & Hcount).
  unfold chunk_sources, flushed_buffers.
  rewrite slice_to_all by lia. exact Hsrc.
Qed.

Lemma discarded_when_output_full paragraphs max_chars min_chars max_chunks :
  exists discarded,
    paragraphs
    = concat (flushed_buffers paragraphs max_chars min_chars max_chunks)
      ++ discarded
    /\ (discarded <> [] ->
        max_chunks
        <= len (chunk_paragraphs paragraphs max_chars min_chars max_chunks)).
Proof.
  destruct (discarded_when_full paragraphs max_chars min_chars max_chunks)
    as (discarded & Hcov & Hfull).
  exists discarded. split; [exact Hcov|]. intros Hsome.
  specialize (Hfull Hsome).
  destruct (Z.le_gt_cases max_chunks 0) as [Hnone|Hroom].
  - pose proof (len_nonneg
                  (chunk_paragraphs paragraphs max_chars min_chars max_chunks)).
    lia.
  - destruct (run_summary paragraphs max_chars min_chars max_chunks)
      as (-> & _ & _ & _ & Hcount).
    unfold chunk_sources. rewrite slice_to_all by lia.
    unfold len in *. rewrite length_map. exact Hfull.
Qed.

(** A flushed buffer of one trimmed paragraph that reaches [min_chars]
    is behind a chunk, and the chunk is the paragraph. *)
Lemma single_buffer_returned paragraphs max_chars min_chars max_chunks p :
  0 < max_chunks ->
  trimmed p ->
  In [p] (flushed_buffers paragraphs max_chars min_chars max_chunks) ->
  min_chars <= len p ->
  In [p] (chunk_sources paragraphs max_chars min_chars max_chunks)
  /\ In p (chunk_paragraphs paragraphs max_chars min_chars max_chunks).
Proof.
  intros Hroom Htrim Hin Hlong.
  assert (In [p] (chunk_sources paragraphs max_chars min_chars max_chunks))
    as Hsrc.
  { rewrite chunk_sources_all by exact Hroom.
    apply list_elem_of_In, list_elem_of_filter.
    split; [|apply list_elem_of_In, Hin].
    unfold accepted. rewrite (chunk_of_single p Htrim). exact Hlong. }
  split; [exact Hsrc|].
  destruct (run_summary paragraphs max_chars min_chars max_chunks)
    as (-> & _).
  apply in_map_iff. exists [p]. split; [apply chunk_of_single, Htrim|].
  exact Hsrc.
Qed.

(** C1, with the conditions under which a paragraph longer than
    [max_chars] is returned.  The input paragraphs are trimmed.  Every
    returned chunk has at most [max_chars] characters, or it was built
    from one paragraph alone, is that paragraph unchanged, and the
    paragraph is an input paragraph longer than [max_chars].  The flushed
    buffers are consecutive pieces of the input, and paragraphs are left
    out of them only when the output has reached [max_chunks]; a
    paragraph longer than [max_chars] is alone in its buffer, so it is
    neither split nor joined with another.  With [max_chunks] positive,
    a buffer of one paragraph of [min_chars] characters or more is behind
    a chunk, which is the paragraph; and when fewer than [max_chunks]
    chunks are returned, every input paragraph longer than [max_chars]
    and of [min_chars] characters or more is returned as a chunk by
    itself. *)
Theorem chunk_within_max_chars paragraphs max_chars min_chars max_chunks :
  Forall trimmed paragraphs ->
  (chunk_paragraphs paragraphs max_chars min_chars max_chunks
   = map chunk_of (chunk_sources paragraphs max_chars min_chars max_chunks)
   /\ Forall (fun src =>
         len (chunk_of src) <= max_chars
         \/ exists p, src = [p] /\ chunk_of src = p
                      /\ In p paragraphs /\ max_chars < len p)
        (chunk_sources paragraphs max_chars min_chars max_chunks)
   /\ Forall (fun chunk =>
         len chunk <= max_chars
         \/ (In chunk paragraphs /\ max_chars < len chunk))
        (chunk_paragraphs paragraphs max_chars min_chars max_chunks))
  /\ (exists discarded,
        paragraphs
        = concat (flushed_buffers paragraphs max_chars min_chars max_chunks)
          ++ discarded
        /\ (discarded <> [] ->
            max_chunks
            <= len (chunk_paragraphs paragraphs
                      max_chars min_chars max_chunks)))
  /\ Forall (fun buf =>
        forall p, In p buf -> max_chars < len p -> buf = [p])
       (flushed_buffers paragraphs max_chars min_chars max_chunks)
  /\ (0 < max_chunks ->
      forall p,
        In [p] (flushed_buffers paragraphs max_chars min_chars max_chunks) ->
        min_chars <= len p ->
        In [p] (chunk_sources paragraphs max_chars min_chars max_chunks)
        /\ In p (chunk_paragraphs paragraphs max_chars min_chars max_chunks))
  /\ (0 < max_chunks ->
      len (chunk_paragraphs paragraphs max_chars min_chars max_chunks)
      < max_chunks ->
      forall p,
        In p paragraphs -> max_chars < len p -> min_chars <= len p ->
        In [p] (chunk_sources paragraphs max_chars min_chars max_chunks)
        /\ In p (chunk_paragraphs paragraphs max_chars min_chars max_chunks)).
Proof.
  intros Htrim.
  pose proof (bounded_or_single paragraphs max_chars min_chars max_chunks
                Htrim) as Hbound.
  destruct (run_summary paragraphs max_chars min_chars max_chunks)
    as (Hout & _ & _ & Hwf & _).
  destruct (discarded_when_output_full
              paragraphs max_chars min_chars max_chunks)
    as (discarded & Hcov & Hfull).
  assert (forall buf p,
            In buf (flushed_buffers paragraphs
                      max_chars min_chars max_chunks) ->
            In p buf -> trimmed p) as Htrimmed.
  { intros buf p Hbuf Hp.
    apply (proj1 (Forall_forall _ _) Htrim), list_elem_of_In.
    rewrite Hcov. apply in_or_app. left.
    apply in_concat. exists buf. auto. }
  assert (Forall (fun buf =>
            forall p, In p buf -> max_chars < len p -> buf = [p])
          (flushed_buffers paragraphs max_chars min_chars max_chunks))
    as Halone.
  { eapply Forall_impl; [exact Hwf|].
    intros buf Hbuf p. apply oversized_alone, Hbuf. }
  split; [split; [exact Hout | split; [exact Hbound|]]|].
  { rewrite Hout. apply Forall_forall. intros chunk Hin.
    apply list_elem_of_In, in_map_iff in Hin.
    destruct Hin as (src & <- & Hin).
    apply list_elem_of_In in Hin.
    destruct (proj1 (Forall_forall _ _) Hbound src Hin)
      as [Hle|(p & -> & Hp & Hinp & Hlong)]; [left; exact Hle|].
    right. rewrite Hp. auto. }
  split; [exists discarded; auto|].
  split; [exact Halone|].
  split.
  - intros Hroom p Hin Hlong.
    apply single_buffer_returned; try assumption.
    apply (Htrimmed [p] p Hin). left. reflexivity.
  - intros Hroom Hfew p Hin Hover Hlong.
    assert (discarded = []) as ->.
    { destruct discarded as [|d discarded]; [reflexivity|].
      exfalso. assert (d :: discarded <> []) as Hsome by discriminate.
      specialize (Hfull Hsome). lia. }
    rewrite app_nil_r in Hcov.
    rewrite Hcov in Hin. apply in_concat in Hin.
    destruct Hin as (buf & Hbuf & Hp).
    pose proof (proj1 (Forall_forall _ _) Halone buf
                  (proj2 (list_elem_of_In _ _) Hbuf) p Hp Hover) as ->.
    apply single_buffer_returned; try assumption.
    apply (Htrimmed [p] p Hbuf Hp).
Qed.

(** On scenario 2, with room for ten chunks: the second chunk is the
    paragraph of 80 characters. *)
Lemma chunk_within_max_chars_witness :
  Forall trimmed [times (lit "A") 50; times (lit "B") 80]
  /\ In [times (lit "B") 80]
        (chunk_sources [times (lit "A") 50; times (lit "B") 80] 60 10 10)
  /\ In (times (lit "B") 80)
        (chunk_paragraphs [times (lit "A") 50; times (lit "B") 80] 60 10 10).
Proof.
  assert (Forall trimmed [times (lit "A") 50; times (lit "B") 80])
    as Htrim by (repeat constructor).
  split; [exact Htrim|].
  destruct (chunk_within_max_chars _ 60 10 10 Htrim)
    as (_ & _ & _ & _ & Hret).
  apply Hret; [lia | vm_compute; reflexivity | right; left; reflexivity
              | vm_compute; reflexivity | vm_compute; discriminate].
Defined.

(** Scenario 2 with room for one chunk only: the loop is left when the
    first paragraph has been flushed, and the paragraph of 80 characters,
    longer than [max_chars = 60], is in no chunk. *)
Lemma oversized_paragraph_not_emitted :
  ~ (Forall trimmed [times (lit "A") 50; times (lit "B") 80] ->
     forall p,
       In p [times (lit "A") 50; times (lit "B") 80] ->
       60 < len p ->
       In p (chunk_paragraphs
               [times (lit "A") 50; times (lit "B") 80] 60 10 1)).
Proof.
  intros H.
  assert (Forall trimmed [times (lit "A") 50; times (lit "B") 80])
    as Htrim by (repeat constructor).
  assert (In (times (lit "B") 80)
             [times (lit "A") 50; times (lit "B") 80]) as Hin
    by (right; left; reflexivity).
  assert (60 < len (times (lit "B") 80)) as Hlong
    by (vm_compute; reflexivity).
  specialize (H Htrim (times (lit "B") 80) Hin Hlong). vm_compute in H.
  destruct H as [H|[]]. discriminate.
Qed.

(** The same run, and a paragraph longer than [max_chars] that is
    shorter than [min_chars]. *)
Example scenario_oversized_cut :
  chunk_paragraphs [times (lit "A") 50; times (lit "B") 80] 60 10 1
  = [times (lit "A") 50].
Proof. vm_compute. reflexivity. Qed.

Example scenario_oversized_short :
  chunk_paragraphs [times (lit "x") 5] 3 10 10 = [].
Proof. vm_compute. reflexivity. Qed.

(** ** Stripping a join of trimmed paragraphs *)

Lemma lstrip_fixed s :
  lstrip s = s -> s = [] \/ exists c s', s = c :: s' /\ isspace c = false.
Proof.
  destruct s as [|c s']; [auto|]. simpl.
  destruct (isspace c) eqn:Hc; [|eauto].
  intros H. pose proof (lstrip_length s') as Hl.
  rewrite H in Hl. simpl in Hl. lia.
Qed.

Lemma lstrip_same_length s : length (lstrip s) = length s -> lstrip s = s.
Proof.
  destruct s as [|c s']; [reflexivity|]. simpl.
  destruct (isspace c); [|reflexivity].
  intros H. pose proof (lstrip_length s'). simpl in H. lia.
Qed.

Lemma trimmed_both s : trimmed s -> lstrip s = s /\ lstrip (rev s) = rev s.
Proof.
  unfold trimmed, strip. intros H.
  assert (lstrip s = s) as Hl.
  { apply lstrip_same_length.
    pose proof (rstrip_length (lstrip s)) as H1.
    pose proof (lstrip_length s) as H2.
    rewrite H in H1. lia. }
  split; [exact Hl|].
  rewrite Hl in H. unfold rstrip in H.
  rewrite <- H at 2. rewrite rev_involutive. reflexivity.
Qed.

Lemma trimmed_rev s : trimmed s -> trimmed (rev s).
Proof.
  intros H. destruct (trimmed_both s H) as [Hl Hr].
  unfold trimmed, strip, rstrip. rewrite Hr, rev_involutive, Hl. reflexivity.
Qed.

Lemma join_cons sep p q rest :
  join sep (p :: q :: rest) = p ++ sep ++ join sep (q :: rest).
Proof. reflexivity. Qed.

Lemma lstrip_join buf :
  Forall trimmed buf ->
  lstrip (join [space] buf) = join [space] (drop_empty buf).
Proof.
  induction 1 as [|p buf Hp _ IH]; [reflexivity|].
  destruct p as [|c s].
  - destruct buf as [|q buf]; [reflexivity|].
    rewrite join_cons. simpl app. simpl lstrip. exact IH.
  - destruct (lstrip_fixed _ (proj1 (trimmed_both _ Hp)))
      as [|(c' & s' & [= <- <-] & Hc)]; [discriminate|].
    change (drop_empty ((c :: s) :: buf)) with ((c :: s) :: buf).
    destruct buf as [|q buf]; simpl; rewrite Hc; reflexivity.
Qed.

Lemma join_snoc sep buf p :
  buf <> [] -> join sep (buf ++ [p]) = join sep buf ++ sep ++ p.
Proof.
  induction buf as [|q buf IH]; [congruence|]. intros _.
  destruct buf as [|r buf]; [reflexivity|].
  change ((q :: r :: buf) ++ [p]) with (q :: r :: (buf ++ [p])).
  rewrite !join_cons.
  change (r :: buf ++ [p]) with ((r :: buf) ++ [p]).
  rewrite IH by discriminate. rewrite <- !app_assoc. reflexivity.
Qed.

Lemma rev_join buf :
  rev (join [space] buf) = join [space] (rev (map (@rev char) buf)).
Proof.
  induction buf as [|p buf IH]; [reflexivity|].
  destruct buf as [|q buf]; [reflexivity|].
  rewrite join_cons, !rev_app_distr, IH.
  change (map (@rev char) (p :: q :: buf))
    with (rev p :: map (@rev char) (q :: buf)).
  change (rev (rev p :: map (@rev char) (q :: buf)))
    with (rev (map (@rev char) (q :: buf)) ++ [rev p]).
  rewrite join_snoc.
  - rewrite <- app_assoc. reflexivity.
  - simpl. intros H. apply app_eq_nil in H. destruct H; discriminate.
Qed.

Lemma drop_empty_map_rev buf :
  drop_empty (map (@rev char) buf) = map (@rev char) (drop_empty buf).
Proof.
  induction buf as [|p buf IH]; [reflexivity|].
  destruct p as [|c s]; [exact IH|].
  simpl. destruct (rev s ++ [c]) eqn:E; [|reflexivity].
  apply app_eq_nil in E. destruct E; discriminate.
Qed.

Lemma map_rev_rev (buf : list str) :
  map (@rev char) (map (@rev char) buf) = buf.
Proof.
  induction buf as [|p buf IH]; simpl; [reflexivity|].
  rewrite rev_involutive, IH. reflexivity.
Qed.

Lemma rstrip_join buf :
  Forall trimmed buf ->
  rstrip (join [space] buf) = join [space] (rev (drop_empty (rev buf))).
Proof.
  intros H. unfold rstrip.
  rewrite rev_join, <- map_rev, lstrip_join.
  - rewrite drop_empty_map_rev, rev_join, map_rev_rev. reflexivity.
  - apply Forall_map, Forall_rev.
    eapply Forall_impl; [exact H|]. intros p Hp. apply trimmed_rev, Hp.
Qed.

Lemma drop_empty_suffix buf :
  exists gap, buf = gap ++ drop_empty buf /\ Forall (fun p => p = []) gap.
Proof.
  induction buf as [|p buf (gap & IH & Hgap)].
  - exists []. split; [reflexivity | constructor].
  - destruct p as [|c s].
    + exists ([] :: gap). simpl. split; [f_equal; exact IH|].
      constructor; [reflexivity | exact Hgap].
    + exists []. split; [reflexivity | constructor].
Qed.

Lemma drop_empty_nil buf :
  drop_empty buf = [] -> Forall (fun p => p = []) buf.
Proof.
  induction buf as [|p buf IH]; [constructor|].
  destruct p as [|c s]; simpl; [|discriminate].
  intros H. constructor; [reflexivity | apply IH, H].
Qed.

Lemma chunk_of_trimmed buf :
  Forall trimmed buf ->
  chunk_of buf = join [space] (rev (drop_empty (rev (drop_empty buf)))).
Proof.
  intros H. unfold chunk_of, strip.
  rewrite lstrip_join by exact H.
  apply rstrip_join.
  destruct (drop_empty_suffix buf) as (gap & E & _).
  rewrite E in H. apply Forall_app in H. apply H.
Qed.

Lemma chunk_run buf :
  buf <> [] -> Forall trimmed buf ->
  exists gap run post,
    buf = gap ++ run ++ post /\ run <> [] /\ chunk_of buf = join [space] run.
Proof.
  intros Hne Htrim. rewrite (chunk_of_trimmed buf Htrim).
  destruct (drop_empty_suffix buf) as (gap & Hbuf & Hgap).
  destruct (drop_empty_suffix (rev (drop_empty buf))) as (post & Hrev & _).
  set (core := rev (drop_empty (rev (drop_empty buf)))) in *.
  assert (drop_empty buf = core ++ rev post) as Hcore.
  { rewrite <- (rev_involutive (drop_empty buf)), Hrev, rev_app_distr.
    reflexivity. }
  destruct core as [|p core'] eqn:E.
  - assert (Forall (fun p => p = []) buf) as Hall.
    { rewrite Hbuf. apply Forall_app. split; [exact Hgap|].
      rewrite <- (rev_involutive (drop_empty buf)). apply Forall_rev.
      apply drop_empty_nil.
      rewrite <- (rev_involutive (drop_empty _)). fold core.
      rewrite E. reflexivity. }
    destruct buf as [|q buf]; [congruence|].
    inversion Hall as [|? ? -> _]; subst.
    exists [], [[]], buf. split; [reflexivity|]. split; [discriminate|].
    reflexivity.
  - exists gap, (p :: core'), (rev post).
    split; [rewrite Hbuf at 1; rewrite Hcore; reflexivity|].
    split; [discriminate | reflexivity].
Qed.

(** ** From flushed buffers to joined runs *)

Lemma runs_of_buffers (P : list str -> Prop) `{!forall b, Decision (P b)}
    (bufs : list (list str)) :
  Forall (fun buf => buf <> [] /\ Forall trimmed buf) bufs ->
  forall gap, exists segs rest,
    gap ++ concat bufs = concat (map seg_paragraphs segs) ++ rest
    /\ Forall (fun seg => snd seg <> []) segs
    /\ map chunk_of (filter P bufs) = map seg_chunk segs.
Proof.
  induction 1 as [|buf bufs [Hne Htrim] _ IH]; intros gap.
  - exists [], gap. simpl. rewrite app_nil_r. auto.
  - destruct (decide (P buf)) as [Hyes|Hno].
    + rewrite filter_cons_True by exact Hyes.
      destruct (chunk_run buf Hne Htrim) as (g & run & post & -> & Hrun & Hch).
      destruct (IH post) as (segs & rest & Hcov & Hsegs & Hout).
      exists ((gap ++ g, run) :: segs), rest.
      split; [|split].
      * simpl. unfold seg_paragraphs at 1. simpl fst; simpl snd.
        rewrite <- !app_assoc. rewrite <- Hcov. reflexivity.
      * constructor; [exact Hrun | exact Hsegs].
      * simpl. rewrite Hch, Hout. reflexivity.
    + rewrite filter_cons_False by exact Hno.
      destruct (IH (gap ++ buf)) as (segs & rest & Hcov & Hsegs & Hout).
      exists segs, rest. split; [|split; assumption].
      simpl. rewrite <- Hcov, <- app_assoc. reflexivity.
Qed.

(** For trimmed input paragraphs, empty ones included: the input is cut
    into gaps and runs of consecutive paragraphs, one run for each
    returned chunk and in the order of the chunks, and each chunk is the
    join of its run with single spaces. *)
Lemma joined_runs_of_trimmed paragraphs max_chars min_chars max_chunks :
  Forall trimmed paragraphs ->
  joins_of_runs paragraphs
    (chunk_paragraphs paragraphs max_chars min_chars max_chunks).
Proof.
  intros Htrim.
  destruct (run_summary paragraphs max_chars min_chars max_chunks)
    as (Hout & Hsrc & [discarded Hcov] & Hwf & Hcount).
  rewrite Hout. unfold chunk_sources.
  destruct (Z.le_gt_cases max_chunks 0) as [Hnone|Hsome].
  - rewrite slice_to_short by lia.
    exists [], paragraphs. split; [reflexivity|]. split; [constructor|].
    reflexivity.
  - rewrite slice_to_all by lia. rewrite Hsrc.
    set (bufs := flushed _) in *.
    assert (Forall (fun buf => buf <> [] /\ Forall trimmed buf) bufs) as Hbufs.
    { rewrite Hcov in Htrim. apply Forall_app in Htrim.
      destruct Htrim as [Htrim _]. apply Forall_concat in Htrim.
      apply Forall_forall. intros buf Hin. split.
      - apply (proj1 (Forall_forall _ _) Hwf buf Hin).
      - apply (proj1 (Forall_forall _ _) Htrim buf Hin). }
    destruct (runs_of_buffers (accepted min_chars) bufs Hbufs [])
      as (segs & rest & Hsegs & Hruns & Hchunks).
    exists segs, (rest ++ discarded).
    split; [|split; assumption].
    rewrite Hcov, app_assoc. f_equal. exact Hsegs.
Qed.

(** ** Chunks of paragraphs that are trimmed and not empty *)

Lemma drop_empty_id (buf : list str) :
  Forall (fun p => p <> []) buf -> drop_empty buf = buf.
Proof.
  intros H. destruct H as [|p buf Hp _]; [reflexivity|].
  destruct p; [congruence | reflexivity].
Qed.

Lemma chunk_of_plain buf :
  Forall (fun p => p <> [] /\ trimmed p) buf ->
  chunk_of buf = join [space] buf.
Proof.
  intros H.
  assert (Forall (fun p : str => p <> []) buf) as Hne.
  { eapply Forall_impl; [exact H|]. intros p Hp. apply Hp. }
  rewrite chunk_of_trimmed.
  - rewrite (drop_empty_id buf Hne).
    pose proof (drop_empty_id (rev buf) (Forall_rev Hne)) as E.
    unfold str in *. rewrite E, rev_involutive. reflexivity.
  - eapply Forall_impl; [exact H|]. intros p Hp. apply Hp.
Qed.

Lemma sources_of_good_paragraphs (P : str -> Prop)
    paragraphs max_chars min_chars max_chunks :
  Forall P paragraphs ->
  Forall (fun src => src <> [] /\ Forall P src)
         (chunk_sources paragraphs max_chars min_chars max_chunks).
Proof.
  intros HP. apply Forall_forall. intros src Hin.
  apply list_elem_of_In in Hin.
  destruct (source_facts _ _ _ _ _ Hin) as ([Hne _] & _ & Hsub).
  split; [exact Hne|]. apply Forall_forall. intros p Hp.
  apply (proj1 (Forall_forall _ _) HP), list_elem_of_In, Hsub.
  apply list_elem_of_In, Hp.
Qed.

Lemma chunks_plain paragraphs max_chars min_chars max_chunks :
  Forall (fun p => p <> [] /\ trimmed p) paragraphs ->
  chunk_paragraphs paragraphs max_chars min_chars max_chunks
  = map (join [space])
        (chunk_sources paragraphs max_chars min_chars max_chunks).
Proof.
  intros H.
  destruct (run_summary paragraphs max_chars min_chars max_chunks)
    as (-> & _).
  apply map_ext_in. intros src Hin.
  apply chunk_of_plain.
  apply (proj1 (Forall_forall _ _)
           (sources_of_good_paragraphs _ _ max_chars min_chars max_chunks H)).
  apply list_elem_of_In, Hin.
Qed.

(** The chunks of the accepted buffers are the joins that reach
    [min_chars]. *)
Lemma joins_of_accepted (min_chars : Z) (bufs : list (list str)) :
  Forall (Forall (fun p => p <> [] /\ trimmed p)) bufs ->
  map chunk_of (filter (accepted min_chars) bufs)
  = filter (fun chunk => min_chars <= len chunk) (map (join [space]) bufs).
Proof.
  induction 1 as [|buf bufs Hbuf _ IH]; [reflexivity|].
  pose proof (chunk_of_plain buf Hbuf) as Hplain.
  change (map (join [space]) (buf :: bufs))
    with (join [space] buf :: map (join [space]) bufs).
  destruct (decide (accepted min_chars buf)) as [Hyes|Hno].
  - rewrite filter_cons_True by exact Hyes.
    rewrite filter_cons_True
      by (unfold accepted in Hyes; rewrite <- Hplain; exact Hyes).
    simpl map. rewrite Hplain, IH. reflexivity.
  - rewrite filter_cons_False by exact Hno.
    rewrite filter_cons_False
      by (unfold accepted in Hno; rewrite <- Hplain; exact Hno).
    exact IH.
Qed.

(** C10, for input paragraphs that are trimmed and not empty.  The
    flushed buffers are runs of consecutive input paragraphs, none of them
    empty, one after the other from the first paragraph on, and paragraphs
    are left behind the last run only when the output has reached
    [max_chunks].  The returned chunks are the joins with single spaces of
    whole runs: of those runs whose join has [min_chars] characters or
    more, in the order of the runs, cut to [max_chunks].  So a run is
    behind one chunk or behind none, and the paragraphs in no chunk are
    those of the runs that failed the test and those left behind. *)
Theorem chunks_are_joined_runs paragraphs max_chars min_chars max_chunks :
  Forall (fun p => p <> [] /\ trimmed p) paragraphs ->
  (exists discarded,
     paragraphs
     = concat (flushed_buffers paragraphs max_chars min_chars max_chunks)
       ++ discarded
     /\ (discarded <> [] ->
         max_chunks
         <= len (chunk_paragraphs paragraphs max_chars min_chars max_chunks)))
  /\ Forall (fun run => run <> [])
            (flushed_buffers paragraphs max_chars min_chars max_chunks)
  /\ chunk_paragraphs paragraphs max_chars min_chars max_chunks
     = slice_to
         (filter (fun chunk => min_chars <= len chunk)
            (map (join [space])
               (flushed_buffers paragraphs max_chars min_chars max_chunks)))
         max_chunks
  /\ (0 < max_chunks ->
      chunk_paragraphs paragraphs max_chars min_chars max_chunks
      = filter (fun chunk => min_chars <= len chunk)
          (map (join [space])
             (flushed_buffers paragraphs max_chars min_chars max_chunks)))
  /\ chunk_sources paragraphs max_chars min_chars max_chunks
     = slice_to
         (filter (accepted min_chars)
            (flushed_buffers paragraphs max_chars min_chars max_chunks))
         max_chunks
  /\ chunk_paragraphs paragraphs max_chars min_chars max_chunks
     = map (join [space])
           (chunk_sources paragraphs max_chars min_chars max_chunks)
  /\ joins_of_runs paragraphs
       (chunk_paragraphs paragraphs max_chars min_chars max_chunks).
Proof.
  intros Hgood.
  destruct (run_summary paragraphs max_chars min_chars max_chunks)
    as (Hout & Hsrc & _ & Hwf & Hcount).
  destruct (discarded_when_output_full
              paragraphs max_chars min_chars max_chunks)
    as (discarded & Hcov & Hfull).
  assert (Forall (Forall (fun p => p <> [] /\ trimmed p))
            (flushed_buffers paragraphs max_chars min_chars max_chunks))
    as Hruns.
  { rewrite Hcov in Hgood. apply Forall_app in Hgood.
    destruct Hgood as [Hgood _]. apply Forall_concat in Hgood.
    exact Hgood. }
  assert (chunk_paragraphs paragraphs max_chars min_chars max_chunks
          = slice_to
              (filter (fun chunk => min_chars <= len chunk)
                 (map (join [space])
                    (flushed_buffers paragraphs
                       max_chars min_chars max_chunks)))
              max_chunks) as Hjoins.
  { rewrite Hout. unfold chunk_sources. rewrite <- slice_to_map, Hsrc.
    fold (flushed_buffers paragraphs max_chars min_chars max_chunks).
    rewrite (joins_of_accepted min_chars _ Hruns). reflexivity. }
  split; [exists discarded; auto|].
  split.
  { eapply Forall_impl; [exact Hwf|]. intros run Hrun. apply Hrun. }
  split; [exact Hjoins|].
  split.
  { intros Hroom. rewrite Hjoins. apply slice_to_all.
    rewrite <- (joins_of_accepted min_chars _ Hruns).
    unfold flushed_buffers. rewrite <- Hsrc.
    unfold len in *. rewrite length_map. lia. }
  split.
  { unfold chunk_sources, flushed_buffers. rewrite Hsrc. reflexivity. }
  split; [apply chunks_plain, Hgood|].
  apply joined_runs_of_trimmed.
  eapply Forall_impl; [exact Hgood|]. intros p Hp. apply Hp.
Qed.

(** Four paragraphs with [max_chars = 5] and [min_chars = 3]: the run of
    the first paragraph is too short and is dropped, the second paragraph
    is a run by itself, the last two are joined. *)
Lemma chunks_are_joined_runs_witness :
  Forall (fun p => p <> [] /\ trimmed p)
         [lit "ab"; lit "cd efg"; lit "h"; lit "ij"]
  /\ flushed_buffers [lit "ab"; lit "cd efg"; lit "h"; lit "ij"] 5 3 10
     = [[lit "ab"]; [lit "cd efg"]; [lit "h"; lit "ij"]]
  /\ chunk_paragraphs [lit "ab"; lit "cd efg"; lit "h"; lit "ij"] 5 3 10
     = filter (fun chunk => 3 <= len chunk)
         (map (join [space])
            (flushed_buffers
               [lit "ab"; lit "cd efg"; lit "h"; lit "ij"] 5 3 10))
  /\ chunk_paragraphs [lit "ab"; lit "cd efg"; lit "h"; lit "ij"] 5 3 10
     = [lit "cd efg"; lit "h ij"].
Proof.
  assert (Forall (fun p => p <> [] /\ trimmed p)
            [lit "ab"; lit "cd efg"; lit "h"; lit "ij"]) as Hgood.
  { repeat constructor; discriminate. }
  split; [exact Hgood|]. split; [reflexivity|].
  split; [|reflexivity].
  destruct (chunks_are_joined_runs _ 5 3 10 Hgood)
    as (_ & _ & _ & Hall & _).
  apply Hall. lia.
Defined.

(** ** The transition relation and the function agree *)

Section MachineFacts.

Import Machine.

Variables max_chars min_chars max_chunks : Z.

Local Abbreviation step := (Machine.step max_chars min_chars max_chunks).

Lemma flushes_flush st : flushes min_chars st (flush min_chars st).
Proof.
  unfold flush.
  destruct (Z.geb_spec (len (chunk_of (buffer st))) min_chars).
  - apply flushes_append. lia.
  - apply flushes_drop. lia.
Qed.

Lemma flushes_deterministic st c1 c2 :
  flushes min_chars st c1 -> flushes min_chars st c2 -> c1 = c2.
Proof. intros [H1|H1] [H2|H2]; try reflexivity; contradiction. Qed.

Lemma step_body paragraph rest st :
  step (Looping (paragraph :: rest) st)
       match body max_chars min_chars max_chunks st paragraph with
       | Next st' => Looping rest st'
       | Break st' => Leaving st'
       end.
Proof.
  unfold body.
  destruct (truthy (buffer st)) eqn:Hbuf; simpl.
  - apply truthy_true in Hbuf.
    destruct (Z.gtb_spec (buffer_len st + len paragraph + 1) max_chars).
    + destruct (Z.geb_spec (len (flush min_chars st)) max_chunks).
      * apply step_break; [assumption | lia | apply flushes_flush | lia].
      * apply step_flush; [assumption | lia | apply flushes_flush | lia].
    + apply step_append. intros [_ Hover]. lia.
  - apply truthy_false in Hbuf. apply step_append. intros [Hne _]. congruence.
Qed.

Lemma step_finish st :
  step (Leaving st) (Returned (finish min_chars max_chunks st)).
Proof.
  unfold finish.
  destruct (truthy (buffer st)) eqn:Hbuf; simpl.
  - apply truthy_true in Hbuf.
    destruct (Z.ltb_spec (len (chunks st)) max_chunks).
    + apply step_last_flush; [assumption | assumption | apply flushes_flush].
    + apply step_return. intros [_ Hroom]. lia.
  - apply truthy_false in Hbuf. apply step_return. intros [Hne _]. congruence.
Qed.

Lemma run_loop paragraphs : forall st,
  exists n, (n <= length paragraphs + 1)%nat
    /\ nsteps step n (Looping paragraphs st)
         (Leaving (state_of
            (for_loop max_chars min_chars max_chunks paragraphs st))).
Proof.
  induction paragraphs as [|paragraph rest IH]; intros st.
  - exists 1%nat. split; [simpl; lia|].
    eapply nsteps_l; [apply step_exhausted | apply nsteps_O].
  - pose proof (step_body paragraph rest st) as Hstep. simpl.
    destruct (body max_chars min_chars max_chunks st paragraph) as [st'|st'].
    + destruct (IH st') as (n & Hn & Hrun).
      exists (S n). split; [simpl; lia|].
      eapply nsteps_l; [exact Hstep | exact Hrun].
    + exists 1%nat. split; [simpl; lia|].
      eapply nsteps_l; [exact Hstep | apply nsteps_O].
Qed.

Lemma run_returns paragraphs :
  exists n, (n <= length paragraphs + 2)%nat
    /\ nsteps step n (entry paragraphs)
         (Returned
            (chunk_paragraphs paragraphs max_chars min_chars max_chunks)).
Proof.
  destruct (run_loop paragraphs initial) as (n & Hn & Hrun).
  exists (n + 1)%nat. split; [lia|].
  eapply nsteps_trans; [exact Hrun|].
  eapply nsteps_l; [apply step_finish | apply nsteps_O].
Qed.

Lemma rtc_returns paragraphs :
  rtc step (entry paragraphs)
      (Returned (chunk_paragraphs paragraphs max_chars min_chars max_chunks)).
Proof.
  destruct (run_returns paragraphs) as (n & _ & Hrun).
  eapply rtc_nsteps_2, Hrun.
Qed.

Lemma step_progress c :
  (exists out, c = Returned out) \/ exists c', step c c'.
Proof.
  destruct c as [[|paragraph rest] st|st|out].
  - right. eexists. apply step_exhausted.
  - right. eexists. apply step_body.
  - right. eexists. apply step_finish.
  - left. eauto.
Qed.

Lemma step_deterministic c c1 c2 : step c c1 -> step c c2 -> c1 = c2.
Proof.
  intros H1 H2.
  inversion H1; subst; inversion H2; subst;
    repeat match goal with
      | Ha : flushes _ ?st ?x, Hb : flushes _ ?st ?y |- _ =>
          pose proof (flushes_deterministic st x y Ha Hb); subst; clear Hb
      end;
    try reflexivity;
    try match goal with H : ~ (_ /\ _) |- _ => exfalso; apply H; split end;
    try assumption; try lia.
Qed.

Lemma returned_final out c : ~ step (Returned out) c.
Proof. intros H. inversion H. Qed.

Lemma returns_unique c out1 out2 :
  rtc step c (Returned out1) -> rtc step c (Returned out2) -> out1 = out2.
Proof.
  intros H1. remember (Returned out1) as r1 eqn:E1.
  induction H1 as [c|c c' r1 Hstep Hrest IH]; intros H2; subst.
  - inversion H2 as [|? ? ? Hbad]; subst; [congruence|].
    exfalso. eapply returned_final, Hbad.
  - inversion H2 as [|? c'' ? Hstep' Hrest']; subst.
    + exfalso. eapply returned_final, Hstep.
    + rewrite (step_deterministic _ _ _ Hstep' Hstep) in Hrest'.
      apply IH; [reflexivity | exact Hrest'].
Qed.

End MachineFacts.

(** C6.  From the entry of [chunk_paragraphs], for every input and all
    parameters, control reaches the [return] with the list the function
    computes, in at most one transition for each paragraph and two more;
    and no configuration on the way is stuck: each one is the [return] or
    has a transition. *)
Theorem chunk_paragraphs_total paragraphs max_chars min_chars max_chunks :
  (exists n, (n <= length paragraphs + 2)%nat
     /\ nsteps (Machine.step max_chars min_chars max_chunks) n
          (Machine.entry paragraphs)
          (Machine.Returned
             (chunk_paragraphs paragraphs max_chars min_chars max_chunks)))
  /\ (forall c,
        rtc (Machine.step max_chars min_chars max_chunks)
            (Machine.entry paragraphs) c ->
        (exists out, c = Machine.Returned out)
        \/ exists c', Machine.step max_chars min_chars max_chunks c c').
Proof.
  split; [apply run_returns|]. intros c _. apply step_progress.
Qed.

(** Scenario 2 returns within four transitions. *)
Lemma chunk_paragraphs_total_witness :
  exists n, (n <= 4)%nat
    /\ nsteps (Machine.step 60 10 10) n
         (Machine.entry [times (lit "A") 50; times (lit "B") 80])
         (Machine.Returned [times (lit "A") 50; times (lit "B") 80]).
Proof.
  exact (proj1 (chunk_paragraphs_total
                  [times (lit "A") 50; times (lit "B") 80] 60 10 10)).
Defined.

(** C7.  Two runs of [chunk_paragraphs] on the same paragraphs with the
    same parameters return the same list. *)
Theorem chunk_paragraphs_deterministic
    paragraphs max_chars min_chars max_chunks out1 out2 :
  rtc (Machine.step max_chars min_chars max_chunks)
      (Machine.entry paragraphs) (Machine.Returned out1) ->
  rtc (Machine.step max_chars min_chars max_chunks)
      (Machine.entry paragraphs) (Machine.Returned out2) ->
  out1 = out2.
Proof. apply returns_unique. Qed.

(** Any run of scenario 2 returns what the function computes. *)
Lemma chunk_paragraphs_deterministic_witness :
  rtc (Machine.step 60 10 10)
      (Machine.entry [times (lit "A") 50; times (lit "B") 80])
      (Machine.Returned [times (lit "A") 50; times (lit "B") 80])
  /\ [times (lit "A") 50; times (lit "B") 80]
     = chunk_paragraphs [times (lit "A") 50; times (lit "B") 80] 60 10 10.
Proof.
  assert (rtc (Machine.step 60 10 10)
            (Machine.entry [times (lit "A") 50; times (lit "B") 80])
            (Machine.Returned [times (lit "A") 50; times (lit "B") 80]))
    as Hrun.
  { exact (rtc_returns 60 10 10 [times (lit "A") 50; times (lit "B") 80]). }
  split; [exact Hrun|].
  apply (chunk_paragraphs_deterministic _ 60 10 10 _ _ Hrun).
  apply rtc_returns.
Defined.

(** ** The pipeline writes nothing before every request has succeeded *)

Section PipelineFacts.

Import Pipeline.

Context {float path : Type}.
Variable parent : path -> path.
Variable build_sql : str -> str -> list (str * list float) -> str.
Variable e : @env float.

Local Abbreviation no_write :=
  (Forall (fun ev : @event path => ~ is_write ev)).

Lemma requests_made_snoc (log : list (@event path)) ev :
  requests_made (log ++ [ev])
  = (requests_made log + requests_made [ev])%nat.
Proof.
  induction log as [|ev' log IH]; [reflexivity|].
  destruct ev'; simpl; rewrite IH; reflexivity.
Qed.

Lemma fails_not_succeeds (answer : result (@response float)) :
  request_fails answer -> ~ request_succeeds answer.
Proof.
  intros Hfail (r & embedding & -> & Hstatus & Hpayload & Hlen).
  destruct Hfail as [Hne|(embedding' & Hpayload' & Hne)]; [congruence|].
  rewrite Hpayload in Hpayload'. injection Hpayload' as <-. congruence.
Qed.

Lemma fetch_embedding_ok input api_key (log log' : list (@event path))
    embedding :
  fetch_embedding e input api_key log = (log', Ok embedding) ->
  log' = log ++ [Posted input EMBED_MODEL api_key]
  /\ request_succeeds (provider e (requests_made log) input).
Proof.
  unfold fetch_embedding, bind, requests_post, call, of_result, ret, raise.
  destruct (provider e (requests_made log) input) as [r|err]; [|discriminate].
  destruct (Z.eqb_spec (status_code r) 200) as [Hstatus|]; simpl;
    [|discriminate].
  destruct (payload_embedding r) as [v|err] eqn:Hpayload; [|discriminate].
  destruct (Z.eqb_spec (len v) DIM) as [Hlen|]; simpl; [|discriminate].
  intros [= <- <-]. split; [reflexivity|].
  exists r, v. auto.
Qed.

Lemma fetch_embedding_log input api_key (log : list (@event path)) :
  (fetch_embedding e input api_key log).1
  = log ++ [Posted input EMBED_MODEL api_key].
Proof.
  unfold fetch_embedding, bind, requests_post, call, of_result, ret, raise.
  destruct (provider e (requests_made log) input) as [r|err]; [|reflexivity].
  destruct (negb (status_code r =? 200)); [reflexivity|].
  destruct (payload_embedding r) as [v|err]; [|reflexivity].
  destruct (negb (len v =? DIM)); reflexivity.
Qed.

Lemma embed_loop_cons api_key total idx chunk rest dataset
    (log : list (@event path)) :
  embed_loop e api_key total idx (chunk :: rest) dataset log
  = match fetch_embedding e chunk api_key
            (log ++ [Printed (EmbeddingChunk (idx + 1) total (len chunk))])
    with
    | (log2, Ok embedding) =>
        embed_loop e api_key total (idx + 1) rest
                   (dataset ++ [(chunk, embedding)]) log2
    | (log2, Raise err) => (log2, Raise err)
    end.
Proof. reflexivity. Qed.

Lemma embed_loop_spec api_key total chunks :
  forall idx dataset (log : list (@event path)),
    (no_write log ->
     no_write (embed_loop e api_key total idx chunks dataset log).1)
    /\ forall dataset',
         (embed_loop e api_key total idx chunks dataset log).2 = Ok dataset' ->
         forall i chunk,
           chunks !! i = Some chunk ->
           request_succeeds (provider e (requests_made log + i) chunk).
Proof.
  induction chunks as [|chunk rest IH]; intros idx dataset log.
  - simpl. split; [auto|]. intros _ _ i chunk Hi. discriminate.
  - rewrite embed_loop_cons.
    set (log1 := log ++ [Printed (EmbeddingChunk (idx + 1) total (len chunk))]).
    assert (requests_made log1 = requests_made log) as Hmade.
    { unfold log1. rewrite requests_made_snoc. simpl. lia. }
    pose proof (fetch_embedding_log chunk api_key log1) as Hlog.
    destruct (fetch_embedding e chunk api_key log1) as [log2 [embedding|err]]
      eqn:Hfetch; simpl in Hlog.
    + destruct (fetch_embedding_ok _ _ _ _ _ Hfetch) as [_ Hok].
      destruct (IH (idx + 1) (dataset ++ [(chunk, embedding)]) log2)
        as [IHlog IHok].
      split.
      * intros Hno. apply IHlog. subst log2. unfold log1.
        repeat (apply Forall_app; split; [|repeat constructor; simpl; tauto]).
        exact Hno.
      * intros dataset' Hres [|i] chunk' Hi.
        -- injection Hi as <-. rewrite Hmade in Hok.
           replace (requests_made log + 0)%nat with (requests_made log) by lia.
           exact Hok.
        -- specialize (IHok dataset' Hres i chunk' Hi).
           subst log2. rewrite requests_made_snoc, Hmade in IHok. simpl in IHok.
           replace (requests_made log + S i)%nat
             with (requests_made log + 1 + i)%nat by lia.
           exact IHok.
    + split; [|discriminate].
      intros Hno. simpl. subst log2. unfold log1.
      repeat (apply Forall_app; split; [|repeat constructor; simpl; tauto]).
      exact Hno.
Qed.

Lemma main_spec args :
  exists log res,
    main parent build_sql e args [] = (log, res)
    /\ ((no_write log /\ exists err, res = Raise err)
        \/ forall idx chunk,
             planned_chunks e args !! idx = Some chunk ->
             request_succeeds (provider e idx chunk)).
Proof.
  assert (forall err : exception,
            exists log res,
              (@nil (@event path), @Raise unit err) = (log, res)
              /\ ((no_write log /\ exists err, res = Raise err)
                  \/ forall idx chunk,
                       planned_chunks e args !! idx = Some chunk ->
                       request_succeeds (provider e idx chunk))) as Hexit.
  { intros err. exists [], (Raise err). split; [reflexivity|].
    left. split; [constructor | eexists; reflexivity]. }
  unfold main.
  destruct (pdf_exists e); simpl; [|apply Hexit].
  destruct (OPENAI_API_KEY e) as [[|c api_key]|]; try apply Hexit.
  unfold bind at 1. unfold of_result at 1.
  unfold planned_chunks in *.
  destruct (extracted e) as [paragraphs|err]; [|apply Hexit].
  destruct (truthy paragraphs); simpl; [|apply Hexit].
  set (chunks := chunk_paragraphs _ _ _ _) in *.
  destruct (truthy chunks); simpl; [|apply Hexit].
  unfold bind at 1.
  destruct (embed_loop_spec (c :: api_key) (len chunks) chunks 0 [] [])
    as [Hlog Hok].
  destruct (embed_loop e (c :: api_key) (len chunks) 0 chunks [] [])
    as [log [dataset|err]].
  - match goal with
    | |- exists _ _, ?run = _ /\ _ => destruct run as [log' res'] eqn:Hrun
    end.
    exists log', res'. split; [reflexivity|].
    right. intros idx chunk Hidx.
    apply (Hok dataset eq_refl idx chunk Hidx).
  - exists log, (Raise err). split; [reflexivity|].
    left. split; [apply Hlog; constructor | eexists; reflexivity].
Qed.

End PipelineFacts.

(** C8.  If a request for one of the chunks is answered with a status
    other than 200, or with a vector that has not 1536 numbers, [main]
    ends with an exception and has not written the output file.  The
    output file is written only if all the requests for the chunks
    succeed. *)
Theorem embedding_failure_aborts {float path : Type}
    (parent : path -> path)
    (build_sql : str -> str -> list (str * list float) -> str)
    (e : Pipeline.env) (args : Pipeline.namespace) :
  let run := Pipeline.main parent build_sql e args [] in
  (forall idx chunk,
     Pipeline.planned_chunks e args !! idx = Some chunk ->
     Pipeline.request_fails (Pipeline.provider e idx chunk) ->
     (exists err, run.2 = Pipeline.Raise err)
     /\ Forall (fun ev => ~ Pipeline.is_write ev) run.1)
  /\ (Exists Pipeline.is_write run.1 ->
      forall idx chunk,
        Pipeline.planned_chunks e args !! idx = Some chunk ->
        Pipeline.request_succeeds (Pipeline.provider e idx chunk)).
Proof.
  intros run.
  destruct (main_spec parent build_sql e args)
    as (log & res & Hrun & [[Hno Herr]|Hall]);
    subst run; rewrite Hrun; simpl.
  - split.
    + intros _ _ _ _. split; assumption.
    + intros Hwrite. exfalso.
      apply Exists_exists in Hwrite. destruct Hwrite as (ev & Hin & Hev).
      apply (proj1 (Forall_forall _ _) Hno ev Hin Hev).
  - split.
    + intros idx chunk Hidx Hfail. exfalso.
      apply (fails_not_succeeds _ Hfail), (Hall idx chunk Hidx).
    + intros _. exact Hall.
Qed.

(** Scenario 2 with a provider that fails on the second request: [main]
    ends with the [RuntimeError] of line 104 and nothing is written. *)
Lemma embedding_failure_aborts_witness :
  Pipeline.planned_chunks env_down_after_one args_scenario_two !! 1%nat
  = Some (times (lit "B") 80)
  /\ Pipeline.request_fails
       (Pipeline.provider env_down_after_one 1 (times (lit "B") 80))
  /\ (Pipeline.main parent_stub build_sql_stub
        env_down_after_one args_scenario_two []).2
     = Pipeline.Raise (Pipeline.RuntimeError 500 (lit "overloaded"))
  /\ Forall (fun ev => ~ Pipeline.is_write ev)
       (Pipeline.main parent_stub build_sql_stub
          env_down_after_one args_scenario_two []).1.
Proof.
  assert (Pipeline.planned_chunks env_down_after_one args_scenario_two
            !! 1%nat = Some (times (lit "B") 80)) as Hidx by reflexivity.
  assert (Pipeline.request_fails
            (Pipeline.provider env_down_after_one 1 (times (lit "B") 80)))
    as Hfail by (left; discriminate).
  split; [exact Hidx|]. split; [exact Hfail|].
  split; [vm_compute; reflexivity|].
  apply (proj1 (embedding_failure_aborts parent_stub build_sql_stub
                  env_down_after_one args_scenario_two)
               1%nat (times (lit "B") 80) Hidx Hfail).
Defined.

(* ================================================================== *)
(** * Further functions *)

(** ** sql_escape *)

Lemma sql_escape_cons c value :
  sql_escape (c :: value)
  = (if (c =? quote)%N then [quote; quote] else [c]) ++ sql_escape value.
Proof. reflexivity. Qed.

Lemma undouble_other c s : c <> quote -> undouble (c :: s) = c :: undouble s.
Proof.
  intros Hc. apply N.eqb_neq in Hc.
  destruct s as [|d s]; simpl; [reflexivity|]. rewrite Hc. reflexivity.
Qed.

(** X1.  Reading the doubled quotes of [sql_escape value] back as single
    ones gives [value]; two values with the same escaped text are
    equal. *)
Theorem sql_escape_round_trip value :
  undouble (sql_escape value) = value
  /\ forall other, sql_escape value = sql_escape other -> value = other.
Proof.
  assert (forall v, undouble (sql_escape v) = v) as Hback.
  { induction v as [|c v IH]; [reflexivity|].
    rewrite sql_escape_cons.
    destruct (N.eqb_spec c quote) as [->|Hc].
    - change (undouble ([quote; quote] ++ sql_escape v))
        with (quote :: undouble (sql_escape v)).
      rewrite IH. reflexivity.
    - change ([c] ++ sql_escape v) with (c :: sql_escape v).
      rewrite undouble_other by assumption. rewrite IH. reflexivity. }
  split; [apply Hback|].
  intros other Heq. rewrite <- (Hback value), Heq. apply Hback.
Qed.

(** X2.  In [sql_escape value] every quote stands in a pair, and the text
    is longer than [value] by the number of quotes of [value]. *)
Theorem sql_escape_quotes_paired value :
  quotes_paired (sql_escape value)
  /\ len (sql_escape value) = len value + count_quotes value.
Proof.
  induction value as [|c value [IHp IHl]].
  - split; [constructor | reflexivity].
  - rewrite sql_escape_cons. unfold count_quotes in *.
    destruct (N.eqb_spec c quote) as [->|Hc].
    + split; [apply paired_quotes, IHp|].
      rewrite filter_cons_True by reflexivity.
      rewrite len_app. unfold len in *. simpl length. lia.
    + split; [apply paired_other; assumption|].
      rewrite filter_cons_False by assumption.
      rewrite len_app. unfold len in *. simpl length. lia.
Qed.

(** ** strip, once more *)

Lemma lstrip_idem s : lstrip (lstrip s) = lstrip s.
Proof.
  induction s as [|c s IH]; [reflexivity|]. simpl.
  destruct (isspace c) eqn:Hc; [exact IH|]. simpl. rewrite Hc. reflexivity.
Qed.

Lemma lstrip_suffix s : exists gap, s = gap ++ lstrip s.
Proof.
  induction s as [|c s [gap IH]]; [exists []; reflexivity|]. simpl.
  destruct (isspace c).
  - exists (c :: gap). simpl. f_equal. exact IH.
  - exists []. reflexivity.
Qed.

Lemma rstrip_prefix s : exists gap, s = rstrip s ++ gap.
Proof.
  destruct (lstrip_suffix (rev s)) as [gap H].
  exists (rev gap). unfold rstrip.
  rewrite <- (rev_involutive s) at 1. rewrite H at 1.
  apply rev_app_distr.
Qed.

Lemma lstrip_snoc w c :
  isspace c = false -> lstrip (w ++ [c]) = lstrip w ++ [c].
Proof.
  intros Hc. induction w as [|d w IH]; simpl; [rewrite Hc; reflexivity|].
  destruct (isspace d); [exact IH | reflexivity].
Qed.

Lemma trimmed_of_both s : lstrip s = s -> lstrip (rev s) = rev s -> trimmed s.
Proof.
  intros Hl Hr. unfold trimmed, strip, rstrip.
  rewrite Hl, Hr. apply rev_involutive.
Qed.

Lemma strip_trimmed s : trimmed (strip s).
Proof.
  apply trimmed_of_both.
  - unfold strip. destruct (lstrip_fixed (lstrip s) (lstrip_idem s))
      as [->|(c & z & Hz & Hc)]; [reflexivity|].
    rewrite Hz. unfold rstrip. simpl rev.
    rewrite lstrip_snoc by exact Hc.
    rewrite rev_app_distr. simpl. rewrite Hc. reflexivity.
  - unfold strip, rstrip. rewrite rev_involutive. apply lstrip_idem.
Qed.

(** ** Texts with single spaces *)

Lemma single_spaced_cons c s :
  single_spaced (c :: s)
  = (negb (isspace c) || (c =? space)%N && head_ok s) && single_spaced s.
Proof. destruct s; reflexivity. Qed.

Lemma sub_spaces_single in_run s :
  single_spaced (Text.sub_spaces_from in_run s) = true
  /\ head_ok (Text.sub_spaces_from true s) = true.
Proof.
  revert in_run. induction s as [|c s IH]; intros in_run; [auto|].
  simpl. destruct (isspace c) eqn:Hc.
  - destruct (IH true) as [IHs IHh]. split; [|exact IHh].
    destruct in_run; [exact IHs|].
    rewrite single_spaced_cons, IHs, IHh. reflexivity.
  - destruct (IH false) as [IHs _].
    rewrite single_spaced_cons, Hc, IHs. simpl. rewrite Hc. auto.
Qed.

Lemma single_spaced_lstrip s :
  single_spaced s = true -> single_spaced (lstrip s) = true.
Proof.
  induction s as [|c s IH]; [auto|].
  rewrite single_spaced_cons. intros H. apply andb_prop in H.
  simpl. destruct (isspace c) eqn:Hc; [apply IH, H|].
  rewrite single_spaced_cons, Hc. apply andb_true_intro. exact H.
Qed.

Lemma head_ok_app_l a b : head_ok (a ++ b) = true -> head_ok a = true.
Proof. destruct a; [reflexivity | exact id]. Qed.

Lemma single_spaced_prefix a b :
  single_spaced (a ++ b) = true -> single_spaced a = true.
Proof.
  induction a as [|c a IH]; [reflexivity|].
  change ((c :: a) ++ b) with (c :: (a ++ b)).
  rewrite !single_spaced_cons. intros H.
  apply andb_prop in H. destruct H as [H1 H2].
  rewrite (IH H2), andb_true_r.
  apply orb_prop in H1. destruct H1 as [->|H1]; [reflexivity|].
  apply andb_prop in H1. destruct H1 as [-> H1].
  rewrite (head_ok_app_l _ _ H1). apply orb_true_r.
Qed.

Lemma single_spaced_strip s :
  single_spaced s = true -> single_spaced (strip s) = true.
Proof.
  intros H. unfold strip.
  destruct (rstrip_prefix (lstrip s)) as [gap Hgap].
  apply (single_spaced_prefix _ gap). rewrite <- Hgap.
  apply single_spaced_lstrip, H.
Qed.

Lemma single_spaced_only_spaces s :
  single_spaced s = true ->
  forall c, In c s -> isspace c = true -> c = space.
Proof.
  induction s as [|d s IH]; [intros _ c []|].
  rewrite single_spaced_cons. intros H c [->|Hin] Hc.
  - apply andb_prop in H. destruct H as [H _]. rewrite Hc in H. simpl in H.
    apply andb_prop in H. destruct H as [H _]. apply N.eqb_eq, H.
  - apply andb_prop in H. apply (IH (proj2 H) c Hin Hc).
Qed.

(** ** extract_paragraphs *)

Lemma linebreak_isspace c : Text.is_linebreak c = true -> isspace c = true.
Proof.
  unfold Text.is_linebreak, isspace.
  rewrite !orb_true_iff, !andb_true_iff, !N.leb_le, !N.eqb_eq. lia.
Qed.

Lemma normalize_block_shape block :
  trimmed (normalize_block block)
  /\ single_spaced (normalize_block block) = true.
Proof.
  unfold normalize_block. split; [apply strip_trimmed|].
  apply single_spaced_strip. apply (sub_spaces_single false).
Qed.

Lemma blocks_loop_Forall (P : str -> Prop) blocks : forall paragraphs,
  (forall block,
     normalize_block block <> [] ->
     25 <= len (normalize_block block)
     \/ Text.re_match_marker (normalize_block block) = true ->
     P (normalize_block block)) ->
  Forall P paragraphs -> Forall P (blocks_loop blocks paragraphs).
Proof.
  induction blocks as [|block rest IH]; intros paragraphs HP Hacc;
    [exact Hacc|].
  simpl. destruct (truthy (normalize_block block)) eqn:Hne; simpl;
    [|apply IH; assumption].
  apply truthy_true in Hne.
  destruct (Z.ltb_spec (len (normalize_block block)) 25) as [Hshort|Hlong];
    simpl.
  - destruct (Text.re_match_marker (normalize_block block)) eqn:Hm; simpl.
    + apply IH; [exact HP|]. apply Forall_app. split; [exact Hacc|].
      constructor; [|constructor]. apply HP; auto.
    + apply IH; assumption.
  - apply IH; [exact HP|]. apply Forall_app. split; [exact Hacc|].
    constructor; [|constructor]. apply HP; auto.
Qed.

Lemma pages_loop_Forall (P : str -> Prop) pages : forall paragraphs,
  (forall block,
     normalize_block block <> [] ->
     25 <= len (normalize_block block)
     \/ Text.re_match_marker (normalize_block block) = true ->
     P (normalize_block block)) ->
  Forall P paragraphs -> Forall P (pages_loop pages paragraphs).
Proof.
  induction pages as [|page rest IH]; intros paragraphs HP Hacc;
    [exact Hacc|].
  simpl. apply IH; [exact HP|]. apply blocks_loop_Forall; assumption.
Qed.

Lemma extracted_paragraphs_shape pages :
  Forall (fun p => p <> [] /\ trimmed p /\ single_spaced p = true)
         (extract_paragraphs pages).
Proof.
  apply pages_loop_Forall; [|constructor].
  intros block Hne _. split; [exact Hne | apply normalize_block_shape].
Qed.

(** X3.  Every paragraph [extract_paragraphs] returns is not empty and
    is trimmed: [strip] would leave it as it is. *)
Theorem extracted_paragraphs_trimmed pages :
  Forall (fun p => p <> [] /\ trimmed p) (extract_paragraphs pages).
Proof.
  apply pages_loop_Forall; [|constructor].
  intros block Hne _. split; [exact Hne | apply normalize_block_shape].
Qed.

(** X4.  In every paragraph [extract_paragraphs] returns, white space
    is single spaces only: a white-space character is U+0020 and the
    character after it is not white space.  So a paragraph holds no line
    break. *)
Theorem extracted_paragraphs_single_spaced pages :
  Forall (fun p =>
            single_spaced p = true
            /\ forall c, In c p ->
                 (isspace c = true -> c = space)
                 /\ Text.is_linebreak c = false)
         (extract_paragraphs pages).
Proof.
  apply pages_loop_Forall; [|constructor].
  intros block _ _.
  destruct (normalize_block_shape block) as [_ Hs].
  split; [exact Hs|]. intros c Hin.
  pose proof (single_spaced_only_spaces _ Hs c Hin) as Honly.
  split; [exact Honly|].
  destruct (Text.is_linebreak c) eqn:Hlb; [|reflexivity].
  pose proof (linebreak_isspace c Hlb) as Hws.
  rewrite (Honly Hws) in Hlb. discriminate.
Qed.

(** X5.  Every paragraph [extract_paragraphs] returns has 25 characters
    or more, or starts like a section marker: digits and the letters I,
    V, X, then a full stop. *)
Theorem extracted_paragraphs_long_or_marker pages :
  Forall (fun p => 25 <= len p \/ Text.re_match_marker p = true)
         (extract_paragraphs pages).
Proof.
  apply pages_loop_Forall; [|constructor]. intros block _ H. exact H.
Qed.

Lemma blocks_loop_acc blocks : forall paragraphs,
  blocks_loop blocks paragraphs = paragraphs ++ blocks_loop blocks [].
Proof.
  induction blocks as [|block rest IH]; intros paragraphs; simpl;
    [rewrite app_nil_r; reflexivity|].
  destruct (negb (truthy (normalize_block block))); [apply IH|].
  destruct ((len (normalize_block block) <? 25)
            && negb (Text.re_match_marker (normalize_block block)));
    [apply IH|].
  rewrite IH, (IH [normalize_block block]), app_assoc. reflexivity.
Qed.

Lemma pages_loop_acc pages : forall paragraphs,
  pages_loop pages paragraphs = paragraphs ++ pages_loop pages [].
Proof.
  induction pages as [|page rest IH]; intros paragraphs; simpl;
    [rewrite app_nil_r; reflexivity|].
  rewrite IH, (IH (blocks_loop _ [])), blocks_loop_acc, app_assoc.
  reflexivity.
Qed.

(** X6.  The pages are handled one after the other and independently:
    the paragraphs of a document are those of its first pages followed by
    those of the remaining pages.  A page for which the reader has no
    text ([None] or the empty string) adds no paragraph. *)
Theorem extract_paragraphs_page_by_page pages more :
  extract_paragraphs (pages ++ more)
  = extract_paragraphs pages ++ extract_paragraphs more
  /\ extract_paragraphs (None :: more) = extract_paragraphs more
  /\ extract_paragraphs (Some [] :: more) = extract_paragraphs more.
Proof.
  unfold extract_paragraphs. split; [|split; reflexivity].
  induction pages as [|page rest IH]; [reflexivity|]. simpl.
  rewrite (pages_loop_acc (rest ++ more)), (pages_loop_acc rest), IH.
  apply app_assoc.
Qed.

(** ** Chunks are plain joins *)



Lemma last_not_space p :
  p <> [] -> trimmed p -> exists w c, p = w ++ [c] /\ isspace c = false.
Proof.
  intros Hne Ht. destruct (trimmed_both p Ht) as [_ Hr].
  destruct (lstrip_fixed _ Hr) as [Hnil|(c & w & Hw & Hc)].
  - exfalso. apply Hne. rewrite <- (rev_involutive p), Hnil. reflexivity.
  - exists (rev w), c. split; [|exact Hc].
    rewrite <- (rev_involutive p), Hw. reflexivity.
Qed.

Lemma head_not_space p : trimmed p -> head_ok p = true.
Proof.
  intros Ht. destruct (trimmed_both p Ht) as [Hl _].
  destruct (lstrip_fixed _ Hl) as [->|(c & w & -> & Hc)]; [reflexivity|].
  simpl. rewrite Hc. reflexivity.
Qed.

Lemma single_spaced_app w c b :
  single_spaced (w ++ [c]) = true -> isspace c = false ->
  single_spaced b = true -> single_spaced ((w ++ [c]) ++ b) = true.
Proof.
  intros Hw Hc Hb. induction w as [|d w IH].
  - simpl app. rewrite single_spaced_cons, Hc, Hb. reflexivity.
  - change (((d :: w) ++ [c]) ++ b) with (d :: ((w ++ [c]) ++ b)).
    change ((d :: w) ++ [c]) with (d :: (w ++ [c])) in Hw.
    rewrite single_spaced_cons in *.
    apply andb_prop in Hw. destruct Hw as [Hd Hw].
    rewrite (IH Hw), andb_true_r.
    replace (head_ok ((w ++ [c]) ++ b)) with (head_ok (w ++ [c]));
      [exact Hd|].
    destruct w; reflexivity.
Qed.

Lemma join_single_spaced buf :
  Forall (fun p => p <> [] /\ trimmed p /\ single_spaced p = true) buf ->
  single_spaced (join [space] buf) = true
  /\ head_ok (join [space] buf) = true.
Proof.
  induction 1 as [|p buf (Hne & Ht & Hs) _ [IHs IHh]]; [auto|].
  destruct buf as [|q buf].
  - simpl. split; [exact Hs | apply head_not_space, Ht].
  - rewrite join_cons. split.
    + destruct (last_not_space p Hne Ht) as (w & c & -> & Hc).
      apply single_spaced_app; [exact Hs | exact Hc|].
      change ([space] ++ join [space] (q :: buf))
        with (space :: join [space] (q :: buf)).
      rewrite single_spaced_cons, IHs, IHh. reflexivity.
    + pose proof (head_not_space p Ht) as Hh.
      destruct p; [congruence | exact Hh].
Qed.

Lemma chunks_of_extracted_shape pages max_chars min_chars max_chunks :
  Forall (fun chunk =>
            chunk <> [] /\ trimmed chunk /\ single_spaced chunk = true)
         (chunk_paragraphs (extract_paragraphs pages)
            max_chars min_chars max_chunks).
Proof.
  set (paragraphs := extract_paragraphs pages).
  assert (Forall (fun p => p <> [] /\ trimmed p /\ single_spaced p = true)
            paragraphs) as Hgood.
  { apply Forall_forall. intros p Hin.
    pose proof (proj1 (Forall_forall _ _)
                  (extracted_paragraphs_shape pages) p Hin) as H.
    exact H. }
  assert (Forall (fun p => p <> [] /\ trimmed p) paragraphs) as Hplain.
  { eapply Forall_impl; [exact Hgood|]. intros p (? & ? & _). auto. }
  rewrite (chunks_plain _ max_chars min_chars max_chunks Hplain).
  apply Forall_map.
  eapply Forall_impl;
    [apply (sources_of_good_paragraphs _ _ max_chars min_chars max_chunks
              Hgood)|].
  intros src [Hne Hsrc]. simpl.
  destruct (join_single_spaced src Hsrc) as [Hs _].
  assert (Forall (fun p => p <> [] /\ trimmed p) src) as Hsrc'.
  { eapply Forall_impl; [exact Hsrc|]. intros p (? & ? & _). auto. }
  split; [|split; [|exact Hs]].
  - destruct src as [|p src]; [congruence|].
    inversion Hsrc as [|? ? (Hp & _) _]; subst.
    destruct src; simpl; [exact Hp|].
    destruct p; [congruence | discriminate].
  - unfold trimmed. rewrite <- (chunk_of_plain src Hsrc') at 2. reflexivity.
Qed.

(** X8.  Every chunk that [chunk_paragraphs] builds from the paragraphs
    of [extract_paragraphs] is not empty, is trimmed, and has single
    spaces as its only white space: the text sent to the provider holds
    no line break and no run of blanks. *)
Theorem chunks_of_extracted_paragraphs pages max_chars min_chars max_chunks :
  Forall (fun chunk =>
            chunk <> [] /\ trimmed chunk /\ single_spaced chunk = true)
         (chunk_paragraphs (extract_paragraphs pages)
            max_chars min_chars max_chunks).
Proof. apply chunks_of_extracted_shape. Qed.

(** ** fetch_embedding and main, once more *)

Section PipelineRuns.

Import Pipeline.

Context {float path : Type}.
Variable parent : path -> path.
Variable build_sql : str -> str -> list (str * list float) -> str.
Variable e : @env float.

Lemma fetch_embedding_returns input api_key (log log' : list (@event path))
    embedding :
  fetch_embedding e input api_key log = (log', Ok embedding) ->
  exists r,
    provider e (requests_made log) input = Ok r
    /\ status_code r = 200
    /\ payload_embedding r = Ok embedding
    /\ len embedding = DIM.
Proof.
  unfold fetch_embedding, bind, requests_post, call, of_result, ret, raise.
  destruct (provider e (requests_made log) input) as [r|err]; [|discriminate].
  destruct (Z.eqb_spec (status_code r) 200) as [Hstatus|]; simpl;
    [|discriminate].
  destruct (payload_embedding r) as [v|err] eqn:Hpayload; [|discriminate].
  destruct (Z.eqb_spec (len v) DIM) as [Hlen|]; simpl; [|discriminate].
  intros [= <- <-]. exists r. auto.
Qed.

Lemma requests_made_app (log more : list (@event path)) :
  requests_made (log ++ more) = (requests_made log + requests_made more)%nat.
Proof.
  induction log as [|ev log IH]; [reflexivity|].
  destruct ev; simpl; rewrite IH; reflexivity.
Qed.

Lemma embed_loop_trace api_key total chunks :
  forall idx dataset (log : list (@event path)),
    exists n,
      (n <= length chunks)%nat
      /\ (embed_loop e api_key total idx chunks dataset log).1
         = log ++ embedding_events api_key total idx (take n chunks)
      /\ forall result,
           (embed_loop e api_key total idx chunks dataset log).2 = Ok result ->
           n = length chunks
           /\ exists vectors,
                result = dataset ++ zip chunks vectors
                /\ length vectors = length chunks
                /\ Forall (fun v => len v = DIM) vectors
                /\ forall i chunk v,
                     chunks !! i = Some chunk -> vectors !! i = Some v ->
                     exists r,
                       provider e (requests_made log + i) chunk = Ok r
                       /\ status_code r = 200
                       /\ payload_embedding r = Ok v.
Proof.
  induction chunks as [|chunk rest IH]; intros idx dataset log.
  - exists 0%nat. simpl. rewrite app_nil_r.
    split; [lia|]. split; [reflexivity|].
    intros result [= <-]. split; [reflexivity|].
    exists []. rewrite app_nil_r.
    split; [reflexivity|]. split; [reflexivity|]. split; [constructor|].
    intros i chunk v Hi. discriminate.
  - rewrite embed_loop_cons.
    set (log1 := log ++ [Printed (EmbeddingChunk (idx + 1) total (len chunk))]).
    pose proof (fetch_embedding_log e chunk api_key log1) as Hlog.
    destruct (fetch_embedding e chunk api_key log1) as [log2 [embedding|err]]
      eqn:Hfetch; simpl in Hlog.
    + destruct (fetch_embedding_returns _ _ _ _ _ Hfetch)
        as (r & Hr & Hstatus & Hpayload & Hlen).
      assert (requests_made log1 = requests_made log) as Hmade1.
      { unfold log1. rewrite requests_made_app. simpl. lia. }
      assert (requests_made log2 = S (requests_made log)) as Hmade2.
      { rewrite Hlog, requests_made_app, Hmade1. simpl. lia. }
      destruct (IH (idx + 1) (dataset ++ [(chunk, embedding)]) log2)
        as (n & Hn & Htrace & Hres).
      exists (S n). split; [simpl; lia|]. split.
      * rewrite Htrace, Hlog. unfold log1. simpl.
        rewrite <- !app_assoc. reflexivity.
      * intros result Hok. destruct (Hres result Hok)
          as (-> & vectors & -> & Hlenv & Hdim & Hprov).
        split; [reflexivity|].
        exists (embedding :: vectors). simpl.
        split; [rewrite <- app_assoc; reflexivity|].
        split; [lia|]. split; [constructor; assumption|].
        intros [|i] chunk' v Hi Hv; simpl in Hi, Hv.
        -- injection Hi as <-. injection Hv as <-.
           exists r. rewrite Nat.add_0_r, <- Hmade1. auto.
        -- destruct (Hprov i chunk' v Hi Hv) as (r' & Hr' & Hrest).
           exists r'. split; [|exact Hrest].
           rewrite Hmade2 in Hr'.
           replace (requests_made log + S i)%nat
             with (S (requests_made log) + i)%nat by lia.
           exact Hr'.
    + exists 1%nat. split; [simpl; lia|]. split; [|discriminate].
      simpl. rewrite Hlog. unfold log1. rewrite <- app_assoc. reflexivity.
Qed.

Ltac early_exit :=
  eexists [], (Pipeline.Raise _);
  split; [reflexivity | left; split; [reflexivity | eexists; reflexivity]].

Lemma main_trace args :
  let chunks := planned_chunks e args in
  exists log res,
    main parent build_sql e args [] = (log, res)
    /\ ((log = [] /\ exists err, res = Raise err)
        \/ exists api_key n,
             OPENAI_API_KEY e = Some api_key
             /\ (n <= length chunks)%nat
             /\ ((log = embedding_events api_key (len chunks) 0
                          (take n chunks)
                  /\ exists err, res = Raise err)
                 \/ exists vectors tail,
                      length vectors = length chunks
                      /\ Forall (fun v => len v = DIM) vectors
                      /\ (forall i chunk v,
                            chunks !! i = Some chunk ->
                            vectors !! i = Some v ->
                            exists r,
                              provider e i chunk = Ok r
                              /\ status_code r = 200
                              /\ payload_embedding r = Ok v)
                      /\ log = embedding_events api_key (len chunks) 0 chunks
                               ++ MadeDirs (parent (output args)) :: tail
                      /\ ((tail = []
                           /\ exists err,
                                mkdir_answer e = Raise err
                                /\ res = Raise err)
                          \/ (tail = [WroteText (output args)
                                        (build_sql (title args) (source args)
                                           (zip chunks vectors))]
                              /\ mkdir_answer e = Ok tt
                              /\ exists err,
                                   write_answer e = Raise err
                                   /\ res = Raise err)
                          \/ (tail = [WroteText (output args)
                                        (build_sql (title args) (source args)
                                           (zip chunks vectors));
                                      Printed
                                        (WroteChunks
                                           (len (zip chunks vectors))
                                           (output args))]
                              /\ mkdir_answer e = Ok tt
                              /\ write_answer e = Ok tt
                              /\ res = Ok tt)))).
Proof.
  intros chunks.
  unfold main. subst chunks. unfold planned_chunks.
  destruct (pdf_exists e); simpl; [|early_exit].
  destruct (OPENAI_API_KEY e) as [[|c key]|]; try early_exit.
  unfold bind at 1. unfold of_result at 1.
  destruct (extracted e) as [paragraphs|err]; [|early_exit].
  destruct (truthy paragraphs); simpl; [|early_exit].
  set (chunks := chunk_paragraphs _ _ _ _) in *.
  destruct (truthy chunks); simpl; [|early_exit].
  unfold bind at 1.
  destruct (embed_loop_trace (c :: key) (len chunks) chunks 0 [] [])
    as (n & Hn & Htrace & Hres).
  destruct (embed_loop e (c :: key) (len chunks) 0 chunks [] [])
    as [log [dataset|err]]; simpl in Htrace.
  - destruct (Hres dataset eq_refl)
      as (-> & vectors & -> & Hlen & Hdim & Hprov).
    rewrite firstn_all in Htrace. simpl app.
    unfold bind, call.
    destruct (mkdir_answer e) as [[]|err1] eqn:Hmk.
    + destruct (write_answer e) as [[]|err2] eqn:Hwr.
      * eexists _, _. split; [reflexivity|]. right.
        exists (c :: key), (length chunks). split; [reflexivity|].
        split; [lia|]. right. eexists vectors, _.
        split; [exact Hlen|]. split; [exact Hdim|]. split; [exact Hprov|].
        split; [rewrite Htrace, <- !app_assoc; reflexivity|].
        right. right. auto.
      * eexists _, _. split; [reflexivity|]. right.
        exists (c :: key), (length chunks). split; [reflexivity|].
        split; [lia|]. right. eexists vectors, _.
        split; [exact Hlen|]. split; [exact Hdim|]. split; [exact Hprov|].
        split; [rewrite Htrace, <- !app_assoc; reflexivity|].
        right. left. eauto.
    + eexists _, _. split; [reflexivity|]. right.
      exists (c :: key), (length chunks). split; [reflexivity|].
      split; [lia|]. right. exists vectors, [].
      split; [exact Hlen|]. split; [exact Hdim|]. split; [exact Hprov|].
      split; [rewrite Htrace; reflexivity|].
      left. eauto.
  - exists log, (Raise err). split; [reflexivity|]. right.
    exists (c :: key), n. split; [reflexivity|]. split; [exact Hn|].
    left. split; [exact Htrace | eexists; reflexivity].
Qed.

Lemma posted_inputs_app (log more : list (@event path)) :
  posted_inputs (log ++ more) = posted_inputs log ++ posted_inputs more.
Proof.
  induction log as [|ev log IH]; [reflexivity|].
  destruct ev; simpl; rewrite IH; reflexivity.
Qed.

Lemma posted_inputs_embedding api_key total chunks : forall idx,
  posted_inputs (@embedding_events path api_key total idx chunks) = chunks.
Proof.
  induction chunks as [|chunk rest IH]; intros idx; [reflexivity|].
  simpl. rewrite IH. reflexivity.
Qed.

Lemma requests_made_posted (log : list (@event path)) :
  requests_made log = length (posted_inputs log).
Proof.
  induction log as [|ev log IH]; [reflexivity|].
  destruct ev; simpl; rewrite IH; reflexivity.
Qed.

Lemma no_write_embedding api_key total chunks : forall idx,
  Forall (fun ev => ~ is_write ev)
         (@embedding_events path api_key total idx chunks).
Proof.
  induction chunks as [|chunk rest IH]; intros idx; [constructor|].
  simpl. constructor; [exact id|]. constructor; [exact id|]. apply IH.
Qed.

Lemma len_planned_chunks (args : @namespace path) :
  0 <= max_chunks args -> len (planned_chunks e args) <= max_chunks args.
Proof.
  intros Hpos. unfold planned_chunks.
  destruct (extracted e); [|exact Hpos].
  unfold chunk_paragraphs, finish. apply len_slice_to, Hpos.
Qed.

End PipelineRuns.

(** X9.  When [fetch_embedding] returns a vector, it has sent one
    request carrying the text, the model name and the key, the answer had
    status 200, and the vector is the one of the answer and has 1536
    numbers. *)
Theorem fetch_embedding_vector {float path : Type} (e : @Pipeline.env float)
    (input api_key : str) (log log' : list (@Pipeline.event path))
    (embedding : list float) :
  Pipeline.fetch_embedding e input api_key log
  = (log', Pipeline.Ok embedding) ->
  len embedding = Pipeline.DIM
  /\ log' = log ++ [Pipeline.Posted input Pipeline.EMBED_MODEL api_key]
  /\ exists r,
       Pipeline.provider e (Pipeline.requests_made log) input = Pipeline.Ok r
       /\ Pipeline.status_code r = 200
       /\ Pipeline.payload_embedding r = Pipeline.Ok embedding.
Proof.
  intros H.
  destruct (fetch_embedding_returns e _ _ _ _ _ H)
    as (r & Hr & Hstatus & Hpayload & Hlen).
  pose proof (fetch_embedding_log e input api_key log) as Hlog.
  rewrite H in Hlog. simpl in Hlog.
  split; [exact Hlen|]. split; [exact Hlog|]. exists r. auto.
Qed.

(** With the provider that always answers. *)
Lemma fetch_embedding_vector_witness :
  @Pipeline.fetch_embedding Z str env_up (lit "abc") (lit "sk-test") []
  = ([Pipeline.Posted (lit "abc") Pipeline.EMBED_MODEL (lit "sk-test")],
     Pipeline.Ok (repeat 0 1536))
  /\ len (repeat 0 1536) = Pipeline.DIM.
Proof.
  assert (@Pipeline.fetch_embedding Z str env_up (lit "abc") (lit "sk-test") []
          = ([Pipeline.Posted (lit "abc") Pipeline.EMBED_MODEL (lit "sk-test")],
             Pipeline.Ok (repeat 0 1536))) as H by reflexivity.
  split; [exact H|].
  apply (fetch_embedding_vector env_up _ _ _ _ _ H).
Defined.

(** X10.  The requests [main] sends carry the chunks in their order, one
    request for a chunk, from the first chunk on: there are never more
    requests than chunks, and never more than [max_chunks] when that is
    not negative. *)
Theorem requests_follow_chunks {float path : Type}
    (parent : path -> path)
    (build_sql : str -> str -> list (str * list float) -> str)
    (e : Pipeline.env) (args : Pipeline.namespace) :
  let log := (Pipeline.main parent build_sql e args []).1 in
  prefix (posted_inputs log) (Pipeline.planned_chunks e args)
  /\ (Pipeline.requests_made log
      <= length (Pipeline.planned_chunks e args))%nat
  /\ (0 <= Pipeline.max_chunks args ->
      Z.of_nat (Pipeline.requests_made log) <= Pipeline.max_chunks args).
Proof.
  intros log.
  assert (exists n, posted_inputs log
                    = take n (Pipeline.planned_chunks e args)) as [n Hn].
  { subst log.
    destruct (main_trace parent build_sql e args)
      as (log & res & -> & [[-> _]|(key & n & _ & _ & Hcase)]); simpl.
    - exists 0%nat. reflexivity.
    - destruct Hcase as [[-> _]|(vectors & tail & _ & _ & _ & -> & Htail)].
      + exists n. apply posted_inputs_embedding.
      + exists (length (Pipeline.planned_chunks e args)).
        rewrite posted_inputs_app, posted_inputs_embedding, firstn_all.
        destruct Htail as [[-> _]|[[-> _]|[-> _]]]; simpl;
          apply app_nil_r. }
  assert (Pipeline.requests_made log
          <= length (Pipeline.planned_chunks e args))%nat as Hle.
  { rewrite requests_made_posted, Hn, length_take. lia. }
  split; [|split; [exact Hle|]].
  - rewrite Hn. exists (drop n (Pipeline.planned_chunks e args)).
    symmetry. apply take_drop.
  - intros Hpos. pose proof (len_planned_chunks e args Hpos) as Hlen.
    unfold len in Hlen. lia.
Qed.

(** X11.  When [main] ends without an exception, it has sent one request
    for each chunk in order, each after its progress line, every vector
    it got has 1536 numbers and is the one the provider answered with,
    and after the last request it has made the directory, written the
    text [build_sql] gives for the chunks with their vectors to the
    output file, and printed the closing line. *)
Theorem main_success {float path : Type}
    (parent : path -> path)
    (build_sql : str -> str -> list (str * list float) -> str)
    (e : Pipeline.env) (args : Pipeline.namespace)
    (log : list Pipeline.event) :
  Pipeline.main parent build_sql e args [] = (log, Pipeline.Ok tt) ->
  let chunks := Pipeline.planned_chunks e args in
  exists api_key vectors,
    Pipeline.OPENAI_API_KEY e = Some api_key
    /\ length vectors = length chunks
    /\ Forall (fun v => len v = Pipeline.DIM) vectors
    /\ (forall i chunk v,
          chunks !! i = Some chunk -> vectors !! i = Some v ->
          exists r,
            Pipeline.provider e i chunk = Pipeline.Ok r
            /\ Pipeline.status_code r = 200
            /\ Pipeline.payload_embedding r = Pipeline.Ok v)
    /\ log = embedding_events api_key (len chunks) 0 chunks
             ++ [Pipeline.MadeDirs (parent (Pipeline.output args));
                 Pipeline.WroteText (Pipeline.output args)
                   (build_sql (Pipeline.title args) (Pipeline.source args)
                      (zip chunks vectors));
                 Pipeline.Printed
                   (Pipeline.WroteChunks (len (zip chunks vectors))
                      (Pipeline.output args))].
Proof.
  intros Hrun chunks.
  destruct (main_trace parent build_sql e args)
    as (log' & res & Hrun' & Hcase).
  rewrite Hrun in Hrun'. injection Hrun' as <- <-.
  destruct Hcase as [[_ [err Herr]]|(key & n & Hkey & _ & Hcase)];
    [discriminate|].
  destruct Hcase
    as [[_ [err Herr]]|(vectors & tail & Hlen & Hdim & Hprov & Hlog & Htail)];
    [discriminate|].
  destruct Htail
    as [(_ & err & _ & Herr)|[(_ & _ & err & _ & Herr)|(-> & _)]];
    try discriminate.
  exists key, vectors. auto.
Qed.

(** Scenario 2 with the provider that always answers. *)
Lemma main_success_witness :
  Pipeline.main parent_stub build_sql_stub env_up args_scenario_two []
  = ((Pipeline.main parent_stub build_sql_stub env_up
        args_scenario_two []).1, Pipeline.Ok tt)
  /\ exists (api_key : str) (vectors : list (list Z)),
       Pipeline.OPENAI_API_KEY env_up = Some api_key
       /\ length vectors = 2%nat.
Proof.
  assert (Pipeline.main parent_stub build_sql_stub env_up args_scenario_two []
          = ((Pipeline.main parent_stub build_sql_stub env_up
                args_scenario_two []).1, Pipeline.Ok tt)) as Hrun.
  { vm_compute. reflexivity. }
  split; [exact Hrun|].
  destruct (main_success parent_stub build_sql_stub env_up args_scenario_two
              _ Hrun) as (key & vectors & Hkey & Hlen & _).
  exists key, vectors. split; [exact Hkey | exact Hlen].
Defined.

(** X12.  [main] writes one file at most, the output file, and it does
    so only after the request for every chunk has been sent and the
    directory has been made. *)
Theorem write_comes_last {float path : Type}
    (parent : path -> path)
    (build_sql : str -> str -> list (str * list float) -> str)
    (e : Pipeline.env) (args : Pipeline.namespace) :
  let log := (Pipeline.main parent build_sql e args []).1 in
  Exists Pipeline.is_write log ->
  Pipeline.mkdir_answer e = Pipeline.Ok tt
  /\ exists before content after,
       log = before
             ++ Pipeline.MadeDirs (parent (Pipeline.output args))
             :: Pipeline.WroteText (Pipeline.output args) content :: after
       /\ posted_inputs before = Pipeline.planned_chunks e args
       /\ Forall (fun ev => ~ Pipeline.is_write ev) before
       /\ Forall (fun ev => ~ Pipeline.is_write ev) after
       /\ posted_inputs after = [].
Proof.
  intros log Hwrite. subst log.
  destruct (main_trace parent build_sql e args)
    as (log & res & Hrun & Hcase).
  rewrite Hrun in *. simpl in *.
  assert (forall api_key total n,
            ~ Exists Pipeline.is_write
                (@embedding_events path api_key total 0
                   (take n (Pipeline.planned_chunks e args)))) as Hnone.
  { intros api_key total n Hex. apply Exists_exists in Hex.
    destruct Hex as (ev & Hin & Hev).
    apply (proj1 (Forall_forall _ _)
             (no_write_embedding api_key total _ 0) ev Hin Hev). }
  destruct Hcase as [[-> _]|(key & n & _ & _ & Hcase)].
  { apply Exists_nil in Hwrite. contradiction. }
  destruct Hcase as [[-> _]|(vectors & tail & _ & _ & _ & -> & Htail)].
  { exfalso. apply (Hnone _ _ _ Hwrite). }
  destruct Htail as [(-> & _)|[(-> & Hmk & _)|(-> & Hmk & _)]].
  - exfalso. apply Exists_app in Hwrite. destruct Hwrite as [Hw|Hw].
    + rewrite <- (firstn_all (Pipeline.planned_chunks e args)) in Hw.
      apply (Hnone _ _ _ Hw).
    + apply Exists_cons in Hw. destruct Hw as [[]|Hw].
      apply Exists_nil in Hw. contradiction.
  - split; [exact Hmk|]. eexists _, _, []. split; [reflexivity|].
    split; [apply posted_inputs_embedding|].
    split; [apply no_write_embedding|]. split; [constructor | reflexivity].
  - split; [exact Hmk|]. eexists _, _, [_]. split; [reflexivity|].
    split; [apply posted_inputs_embedding|].
    split; [apply no_write_embedding|].
    split; [repeat constructor; simpl; tauto | reflexivity].
Qed.

(** Scenario 2 with the provider that always answers. *)
Lemma write_comes_last_witness :
  Exists Pipeline.is_write
    (Pipeline.main parent_stub build_sql_stub env_up args_scenario_two []).1
  /\ Pipeline.mkdir_answer env_up = Pipeline.Ok tt.
Proof.
  assert (Exists Pipeline.is_write
            (Pipeline.main parent_stub build_sql_stub env_up
               args_scenario_two []).1) as Hw.
  { vm_compute. do 5 apply Exists_cons_tl. apply Exists_cons_hd. exact I. }
  split; [exact Hw|].
  apply (write_comes_last parent_stub build_sql_stub env_up
           args_scenario_two Hw).
Defined.

(** ** chunk_paragraphs, once more *)

Lemma chunk_paragraphs_none paragraphs max_chars min_chars max_chunks :
  max_chunks <= 0 ->
  chunk_paragraphs paragraphs max_chars min_chars max_chunks = [].
Proof.
  intros Hmk.
  destruct (run_summary paragraphs max_chars min_chars max_chunks)
    as (-> & _ & _ & _ & Hcount).
  unfold chunk_sources. rewrite slice_to_short by lia. reflexivity.
Qed.

Lemma length_concat_ge {A : Type} (ls : list (list A)) :
  Forall (fun l => l <> []) ls -> (length ls <= length (concat ls))%nat.
Proof.
  induction 1 as [|l ls Hl _ IH]; simpl; [lia|].
  rewrite length_app. destruct l; [congruence | simpl; lia].
Qed.

Lemma filter_all {A : Type} (P : A -> Prop) `{!forall x, Decision (P x)}
    (l : list A) :
  Forall P l -> filter P l = l.
Proof.
  induction 1 as [|x l Hx _ IH]; [reflexivity|].
  rewrite filter_cons_True by exact Hx. rewrite IH. reflexivity.
Qed.

Lemma length_filter_le {A : Type} (P : A -> Prop)
    `{!forall x, Decision (P x)} (l : list A) :
  (length (filter P l) <= length l)%nat.
Proof. apply sublist_length, sublist_filter. Qed.

Lemma chunks_le_consumed max_chars min_chars max_chunks consumed st g :
  inv max_chars min_chars max_chunks consumed st g ->
  len (chunks st) + (if truthy (buffer st) then 1 else 0) <= len consumed.
Proof.
  intros [Hch Hsrc Hcons _ _ Hfl _].
  assert (Forall (fun l : list str => l <> []) (flushed g)) as Hne.
  { eapply Forall_impl; [exact Hfl|]. intros b Hb. apply Hb. }
  pose proof (length_concat_ge _ Hne) as Hcat.
  pose proof (length_filter_le (accepted min_chars) (flushed g)) as Hfilter.
  rewrite <- Hsrc in Hfilter.
  rewrite Hch, Hcons. unfold len. rewrite length_map, length_app.
  destruct (buffer st); simpl; lia.
Qed.

Lemma for_loop_no_break max_chars min_chars max_chunks paragraphs :
  forall consumed st g,
    inv max_chars min_chars max_chunks consumed st g ->
    len (consumed ++ paragraphs) <= max_chunks ->
    exists st',
      for_loop max_chars min_chars max_chunks paragraphs st = Next st'.
Proof.
  induction paragraphs as [|paragraph rest IH]; intros consumed st g Hinv Hlen;
    [eexists; reflexivity|].
  pose proof (body_inv _ _ _ consumed st g paragraph Hinv) as Hbody.
  simpl.
  destruct (body max_chars min_chars max_chunks st paragraph)
    as [st'|st'] eqn:Hb.
  - apply (IH _ _ _ Hbody). rewrite <- app_assoc. exact Hlen.
  - exfalso.
    destruct (body_break _ _ _ _ _ _ Hb) as (Hne & Hfull & _).
    pose proof (len_flush min_chars st) as Hlf.
    pose proof (chunks_le_consumed _ _ _ _ _ _ Hinv) as Hcount.
    apply truthy_true in Hne. rewrite Hne in Hcount.
    rewrite len_app in Hlen. unfold len in *. simpl in Hlen. lia.
Qed.

(** X13.  With [max_chunks] zero or negative, [chunk_paragraphs] returns
    no chunk at all, whatever the input. *)
Theorem no_chunks_without_room paragraphs max_chars min_chars max_chunks :
  max_chunks <= 0 ->
  chunk_paragraphs paragraphs max_chars min_chars max_chunks = [].
Proof. apply chunk_paragraphs_none. Qed.

(** With [max_chunks = 0] on scenario 2. *)
Lemma no_chunks_without_room_witness :
  chunk_paragraphs [times (lit "A") 50; times (lit "B") 80] 60 10 0 = [].
Proof. apply no_chunks_without_room. lia. Defined.

(** X14.  Nothing is lost when nothing is filtered: with [min_chars]
    zero or negative and [max_chunks] no less than the number of
    paragraphs, the paragraphs behind the returned chunks, chunk after
    chunk, are the input paragraphs, all of them and in their order. *)
Theorem all_paragraphs_kept paragraphs max_chars min_chars max_chunks :
  min_chars <= 0 ->
  len paragraphs <= max_chunks ->
  concat (chunk_sources paragraphs max_chars min_chars max_chunks)
  = paragraphs
  /\ chunk_paragraphs paragraphs max_chars min_chars max_chunks
     = map chunk_of (chunk_sources paragraphs max_chars min_chars max_chunks).
Proof.
  intros Hmin Hmax. split; [|apply run_summary].
  assert (forall bufs : list (list str),
            filter (accepted min_chars) bufs = bufs) as Hall.
  { intros bufs. apply filter_all, Forall_forall. intros b _.
    unfold accepted. pose proof (len_nonneg (chunk_of b)). lia. }
  unfold chunk_sources, ghost_of, ghost_finish.
  pose proof (inv_initial max_chars min_chars max_chunks) as Hinit.
  destruct (for_loop_no_break max_chars min_chars max_chunks paragraphs
              [] initial no_ghost Hinit Hmax) as [st Hloop].
  pose proof (for_loop_inv max_chars min_chars max_chunks paragraphs
                [] initial no_ghost Hinit) as Hinv.
  rewrite Hloop in *. simpl state_of. simpl app in Hinv.
  pose proof (chunks_le_consumed _ _ _ _ _ _ Hinv) as Hcount.
  destruct Hinv as [Hch Hsrc Hcons _ _ Hfl _].
  set (g := ghost_loop _ _ _ _ _ _) in *.
  rewrite Hall in Hsrc.
  assert (Forall (fun l : list str => l <> []) (flushed g)) as Hne.
  { eapply Forall_impl; [exact Hfl|]. intros b Hb. apply Hb. }
  pose proof (length_concat_ge _ Hne) as Hcat.
  destruct (truthy (buffer st)) eqn:Hbuf; simpl.
  - destruct (Z.ltb_spec (len (chunks st)) max_chunks) as [_|Hge]; [|lia].
    unfold note_flush; simpl.
    destruct (Z.geb_spec (len (chunk_of (buffer st))) min_chars) as [_|Hlt];
      [|pose proof (len_nonneg (chunk_of (buffer st))); lia].
    rewrite slice_to_all.
    + rewrite Hsrc, concat_snoc. symmetry. exact Hcons.
    + rewrite Hsrc, len_snoc. rewrite Hcons in Hmax.
      unfold len in *. rewrite length_app in Hmax.
      apply truthy_true in Hbuf. destruct (buffer st); [congruence|].
      simpl in Hmax. lia.
  - apply truthy_false in Hbuf. rewrite Hbuf, app_nil_r in Hcons.
    rewrite slice_to_all.
    + rewrite Hsrc. symmetry. exact Hcons.
    + rewrite Hsrc. rewrite Hcons in Hmax. unfold len in *. lia.
Qed.

(** Three paragraphs, no lower bound, room for three chunks. *)
Lemma all_paragraphs_kept_witness :
  concat (chunk_sources [lit "ab"; lit "cd"; lit "efghij"] 6 0 3)
  = [lit "ab"; lit "cd"; lit "efghij"].
Proof.
  apply (all_paragraphs_kept [lit "ab"; lit "cd"; lit "efghij"] 6 0 3);
    [lia | vm_compute; discriminate].
Defined.

(** ** The cuts are greedy *)

Section Greedy.

Variables max_chars min_chars max_chunks : Z.

Local Abbreviation cuts := (greedy_cuts max_chars).

Local Abbreviation greedy consumed st g :=
  (consumed = concat (flushed g) ++ buffer st
   /\ buffer_len st = lensum (buffer st)
   /\ cuts (flushed g) (buffer st)
   /\ (flushed g <> [] -> buffer st <> [])).

Lemma head_app_l {A : Type} (l m : list A) :
  l <> [] -> head (l ++ m) = head l.
Proof. destruct l; [congruence | reflexivity]. Qed.

Lemma cuts_extend bufs next more :
  cuts bufs next -> next <> [] -> cuts bufs (next ++ more).
Proof.
  intros H Hne. induction bufs as [|b bufs IH]; [exact I|].
  destruct H as [Hb Hrest]. split; [|apply IH, Hrest].
  rewrite app_assoc, head_app_l; [exact Hb|].
  intros E. apply app_eq_nil in E. apply Hne, E.
Qed.

Lemma cuts_snoc bufs b next :
  cuts bufs b -> b <> [] ->
  match head next with
  | None => True
  | Some p => lensum b + len p + 1 > max_chars
  end ->
  cuts (bufs ++ [b]) next.
Proof.
  intros H Hne Hb. induction bufs as [|a bufs IH].
  - simpl. auto.
  - destruct H as [Ha Hrest]. split; [|apply IH, Hrest].
    rewrite concat_snoc, <- app_assoc, app_assoc, head_app_l; [exact Ha|].
    intros E. apply app_eq_nil in E. apply Hne, E.
Qed.

Lemma body_greedy consumed st g paragraph :
  greedy consumed st g ->
  match body max_chars min_chars max_chunks st paragraph with
  | Next st' =>
      greedy (consumed ++ [paragraph]) st'
             (ghost_body max_chars min_chars st paragraph g)
  | Break _ =>
      forall rest,
        let g' := ghost_body max_chars min_chars st paragraph g in
        consumed ++ paragraph :: rest
        = concat (flushed g') ++ paragraph :: rest
        /\ cuts (flushed g') (paragraph :: rest)
  end.
Proof.
  intros (Hcons & Hlen & Hcuts & Hne).
  unfold body, ghost_body.
  destruct (truthy (buffer st)) eqn:Hbuf; simpl.
  - apply truthy_true in Hbuf.
    destruct (Z.gtb_spec (buffer_len st + len paragraph + 1) max_chars)
      as [Hover|Hfits].
    + assert (forall rest, cuts (flushed g ++ [buffer st]) (paragraph :: rest))
        as Hnew.
      { intros rest. apply cuts_snoc; [exact Hcuts | exact Hbuf|].
        simpl. lia. }
      destruct (len (flush min_chars st) >=? max_chunks).
      * intros rest. simpl. split; [|apply Hnew].
        rewrite concat_snoc, Hcons, <- app_assoc. reflexivity.
      * simpl. split; [rewrite concat_snoc, Hcons, <- app_assoc; reflexivity|].
        split; [lia|]. split; [apply Hnew|]. discriminate.
    + simpl. split; [rewrite Hcons, <- app_assoc; reflexivity|].
      split; [rewrite lensum_snoc; lia|].
      split; [apply cuts_extend; assumption|].
      intros _ E. apply app_eq_nil in E. destruct E; discriminate.
  - apply truthy_false in Hbuf.
    split; [rewrite Hcons, <- app_assoc; reflexivity|].
    split; [rewrite lensum_snoc; lia|].
    split.
    + destruct (flushed g) as [|b bufs] eqn:E; [exact I|].
      exfalso. apply Hne; [discriminate | exact Hbuf].
    + intros _ E. apply app_eq_nil in E. destruct E; discriminate.
Qed.

Lemma for_loop_greedy paragraphs : forall consumed st g,
  greedy consumed st g ->
  match for_loop max_chars min_chars max_chunks paragraphs st with
  | Next st' =>
      greedy (consumed ++ paragraphs) st'
             (ghost_loop max_chars min_chars max_chunks paragraphs st g)
  | Break st' =>
      buffer st' = []
      /\ exists discarded,
           let g' :=
             ghost_loop max_chars min_chars max_chunks paragraphs st g in
           consumed ++ paragraphs = concat (flushed g') ++ discarded
           /\ cuts (flushed g') discarded
  end.
Proof.
  induction paragraphs as [|paragraph rest IH]; intros consumed st g H.
  - simpl. rewrite app_nil_r. exact H.
  - pose proof (body_greedy consumed st g paragraph H) as Hbody.
    simpl.
    destruct (body max_chars min_chars max_chunks st paragraph)
      as [st'|st'] eqn:Hb.
    + specialize (IH _ _ _ Hbody). rewrite <- app_assoc in IH. exact IH.
    + destruct (body_break _ _ _ _ _ _ Hb) as (_ & _ & ->).
      split; [reflexivity|]. exists (paragraph :: rest). apply Hbody.
Qed.

End Greedy.

(** X15.  The buffers are cut greedily: the flushed buffers are
    consecutive pieces of the input, and a flushed buffer that is followed
    in the input by a paragraph could not take that paragraph in, since
    the buffer, a separator and the paragraph are more than [max_chars]
    characters. *)
Theorem flushes_are_greedy paragraphs max_chars min_chars max_chunks :
  exists discarded,
    paragraphs
    = concat (flushed_buffers paragraphs max_chars min_chars max_chunks)
      ++ discarded
    /\ greedy_cuts max_chars
         (flushed_buffers paragraphs max_chars min_chars max_chunks)
         discarded.
Proof.
  unfold flushed_buffers, ghost_of, ghost_finish.
  pose proof (for_loop_greedy max_chars min_chars max_chunks paragraphs
                [] initial no_ghost) as H.
  simpl app in H.
  destruct (for_loop max_chars min_chars max_chunks paragraphs initial)
    as [st|st]; simpl state_of.
  - destruct H as (Hcons & _ & Hcuts & _).
    { simpl. split; [reflexivity|]. split; [reflexivity|].
      split; [exact I | congruence]. }
    destruct (truthy (buffer st)) eqn:Hbuf; simpl.
    + destruct (len (chunks st) <? max_chunks); simpl.
      * exists []. rewrite concat_snoc, app_nil_r. split; [exact Hcons|].
        apply cuts_snoc; [exact Hcuts | apply truthy_true, Hbuf | exact I].
      * exists (buffer st). split; assumption.
    + exists (buffer st). split; assumption.
  - destruct H as (Hbuf & discarded & Hcons & Hcuts).
    { simpl. split; [reflexivity|]. split; [reflexivity|].
      split; [exact I | congruence]. }
    rewrite Hbuf. simpl. exists discarded. split; assumption.
Qed.

(** ** sanitize_filename *)

Lemma in_replace_char old new s c :
  In c (Text.replace_char old new s) -> In c new \/ (In c s /\ c <> old).
Proof.
  unfold Text.replace_char. intros H. apply in_flat_map in H.
  destruct H as (d & Hd & Hc).
  destruct (N.eqb_spec d old) as [->|Hne]; [left; exact Hc|].
  right. destruct Hc as [<-|[]]. auto.
Qed.

Lemma replace_char_id old new s :
  (forall c, In c s -> c <> old) -> Text.replace_char old new s = s.
Proof.
  induction s as [|d s IH]; intros H; [reflexivity|].
  unfold Text.replace_char in *. simpl.
  destruct (N.eqb_spec d old) as [->|_].
  - exfalso. apply (H old); [left|]; reflexivity.
  - simpl. f_equal. apply IH. intros c Hc. apply H. right. exact Hc.
Qed.

Lemma split_from_words s : forall cur,
  Forall (fun c => isspace c = false) cur ->
  Forall (fun w => w <> [] /\ Forall (fun c => isspace c = false) w)
         (Text.split_from cur s).
Proof.
  induction s as [|c s IH]; intros cur Hcur; simpl.
  - destruct cur; simpl; [constructor|].
    constructor; [split; [discriminate | exact Hcur] | constructor].
  - destruct (isspace c) eqn:Hc.
    + destruct cur as [|d cur]; simpl; [apply IH; constructor|].
      constructor; [split; [discriminate | exact Hcur]|].
      apply IH. constructor.
    + apply IH. apply Forall_app. split; [exact Hcur|].
      constructor; [exact Hc | constructor].
Qed.

Lemma lstrip_word w :
  Forall (fun c => isspace c = false) w -> lstrip w = w.
Proof. intros H. destruct H as [|c w Hc _]; simpl; [|rewrite Hc]; reflexivity. Qed.

Lemma word_shape w :
  w <> [] /\ Forall (fun c => isspace c = false) w ->
  w <> [] /\ trimmed w /\ single_spaced w = true.
Proof.
  intros [Hne Hw]. split; [exact Hne|]. split.
  - apply trimmed_of_both; apply lstrip_word; [exact Hw|].
    apply Forall_rev, Hw.
  - clear Hne. induction Hw as [|c w Hc _ IH]; [reflexivity|].
    rewrite single_spaced_cons, Hc, IH. reflexivity.
Qed.

Lemma join_words_shape text :
  single_spaced (join [space] (Text.split text)) = true
  /\ head_ok (join [space] (Text.split text)) = true
  /\ forall c, In c (join [space] (Text.split text)) ->
       c = space \/ (In c text /\ isspace c = false).
Proof.
  pose proof (split_from_words text [] (List.Forall_nil _)) as Hwords.
  fold (Text.split text) in Hwords.
  assert (Forall (fun p => p <> [] /\ trimmed p /\ single_spaced p = true)
            (Text.split text)) as Hshape.
  { eapply Forall_impl; [exact Hwords|]. apply word_shape. }
  destruct (join_single_spaced _ Hshape) as [Hs Hh].
  split; [exact Hs|]. split; [exact Hh|].
  intros c Hin.
  destruct (isspace c) eqn:Hc.
  - left. apply (single_spaced_only_spaces _ Hs c Hin Hc).
  - right. split; [|reflexivity].
    assert (forall s cur w,
              In w (Text.split_from cur s) -> In c w ->
              In c cur \/ In c s) as Hfrom.
    { induction s as [|d s IH]; intros cur w; simpl.
      - destruct cur; simpl; [intros []|]. intros [<-|[]]. auto.
      - destruct (isspace d).
        + destruct cur as [|x cur]; simpl.
          * intros Hw Hcw. destruct (IH [] w Hw Hcw) as [[]|H]. auto.
          * intros [<-|Hw] Hcw; [auto|].
            destruct (IH [] w Hw Hcw) as [[]|H]. auto.
        + intros Hw Hcw. destruct (IH _ w Hw Hcw) as [H|H]; [|auto].
          apply in_app_or in H. destruct H as [H|[<-|[]]]; auto. }
    assert (forall ws, In c (join [space] ws) ->
                       exists w, In w ws /\ In c w) as Hjoin.
    { induction ws as [|w ws IH]; [intros []|].
      destruct ws as [|v ws]; [simpl; eauto|].
      rewrite join_cons. intros H.
      apply in_app_or in H. destruct H as [H|H]; [exists w; simpl; auto|].
      apply in_app_or in H. destruct H as [[<-|[]]|H]; [discriminate|].
      destruct (IH H) as (w' & Hw' & Hcw'). exists w'. simpl in *. tauto. }
    destruct (Hjoin _ Hin) as (w & Hw & Hcw).
    destruct (Hfrom text [] w Hw Hcw) as [[]|H]. exact H.
Qed.

Lemma sanitized_replacements text c :
  In c
    (Text.replace_char 124%N underscore
       (Text.replace_char 62%N underscore
          (Text.replace_char 60%N underscore
             (Text.replace_char 34%N underscore
                (Text.replace_char 63%N underscore
                   (Text.replace_char 42%N underscore
                      (Text.replace_char 58%N underscore
                         (Text.replace_char 92%N underscore
                            (Text.replace_char 47%N underscore text))))))))) ->
  forbidden_in_filename c = false.
Proof.
  intros H.
  repeat match goal with
    | H : In c (Text.replace_char _ _ _) |- _ =>
        apply in_replace_char in H; destruct H as [[<-|[]]|[H ?]];
        [reflexivity|]
    end.
  unfold forbidden_in_filename.
  repeat match goal with
    | H : c <> _ |- _ => apply N.eqb_neq in H; rewrite H; clear H
    end.
  reflexivity.
Qed.

Lemma slice_to_in {A : Type} (l : list A) (stop : Z) (x : A) :
  In x (slice_to l stop) -> In x l.
Proof.
  intros H. apply list_elem_of_In. apply list_elem_of_In in H.
  eapply elem_of_sublist; [exact H | apply slice_to_sublist].
Qed.

(** X17.  The name [sanitize_filename] returns is never empty and holds
    none of the characters it replaces: slash, backslash, colon, star,
    question mark, double quote, angle brackets and bar. *)
Theorem sanitized_name_is_safe text max_len :
  sanitize_filename text max_len <> []
  /\ Forall (fun c => forbidden_in_filename c = false)
            (sanitize_filename text max_len).
Proof.
  unfold sanitize_filename.
  set (replaced := Text.replace_char 124%N _ _).
  destruct (truthy (slice_to (join [space] (Text.split replaced)) max_len))
    eqn:Hne.
  - split; [apply truthy_true, Hne|].
    apply Forall_forall. intros c Hin.
    apply list_elem_of_In, slice_to_in in Hin.
    destruct (join_words_shape replaced) as (_ & _ & Hchars).
    destruct (Hchars c Hin) as [->|[Hc _]]; [reflexivity|].
    apply (sanitized_replacements _ c Hc).
  - split; [discriminate|]. repeat constructor.
Qed.

Lemma slice_to_take {A : Type} (l : list A) (stop : Z) :
  exists rest, l = slice_to l stop ++ rest.
Proof.
  unfold slice_to. destruct (stop <? 0);
    eexists; symmetry; apply take_drop.
Qed.

(** X18.  The name [sanitize_filename] returns does not start with
    white space, and its white space is single spaces only.  For a
    [max_len] that is not negative it has at most [max_len] characters,
    or the two of the default name. *)
Theorem sanitized_name_shape text max_len :
  head_ok (sanitize_filename text max_len) = true
  /\ single_spaced (sanitize_filename text max_len) = true
  /\ (0 <= max_len ->
      len (sanitize_filename text max_len) <= Z.max max_len 2).
Proof.
  unfold sanitize_filename.
  set (replaced := Text.replace_char 124%N _ _).
  destruct (join_words_shape replaced) as (Hs & Hh & _).
  destruct (slice_to_take (join [space] (Text.split replaced)) max_len)
    as [rest Hrest].
  destruct (truthy (slice_to (join [space] (Text.split replaced)) max_len)).
  - split; [|split].
    + apply (head_ok_app_l _ rest). rewrite <- Hrest. exact Hh.
    + apply (single_spaced_prefix _ rest). rewrite <- Hrest. exact Hs.
    + intros Hpos. pose proof (len_slice_to
                                 (join [space] (Text.split replaced))
                                 max_len Hpos). lia.
  - split; [reflexivity|]. split; [reflexivity|].
    intros _. change (len DEFAULT_NAME) with 2. lia.
Qed.

(** A title cut after four characters keeps the space it ends with. *)
Lemma sanitized_name_shape_witness :
  sanitize_filename (lit "aaa  bbb") 4 = lit "aaa "
  /\ len (sanitize_filename (lit "aaa  bbb") 4) <= Z.max 4 2.
Proof.
  split; [reflexivity|].
  apply (sanitized_name_shape (lit "aaa  bbb") 4). lia.
Defined.

Lemma split_from_nonempty s : forall cur,
  cur <> [] -> Text.split_from cur s <> [].
Proof.
  induction s as [|c s IH]; intros cur Hne; simpl.
  - destruct cur; [congruence | discriminate].
  - destruct (isspace c).
    + destruct cur; [congruence | discriminate].
    + apply IH. intros E. apply app_eq_nil in E. destruct E; discriminate.
Qed.

Lemma head_ok_rev_tail c (s : str) :
  head_ok (rev (c :: s)) = true -> s <> [] -> head_ok (rev s) = true.
Proof.
  simpl. intros H Hne. apply (head_ok_app_l _ [c]). exact H.
Qed.

Lemma join_split_from s : forall cur,
  single_spaced s = true ->
  head_ok (rev s) = true ->
  cur <> [] \/ head_ok s = true ->
  join [space] (Text.split_from cur s) = cur ++ s.
Proof.
  induction s as [|c s IH]; intros cur Hs Hlast Hfirst.
  - simpl. rewrite app_nil_r. destruct cur; reflexivity.
  - rewrite single_spaced_cons in Hs. apply andb_prop in Hs.
    destruct Hs as [Hc Hs]. simpl.
    destruct (isspace c) eqn:Hws.
    + simpl in Hc. apply andb_prop in Hc. destruct Hc as [Hsp Hnext].
      apply N.eqb_eq in Hsp. subst c.
      destruct s as [|d s].
      { simpl in Hlast. discriminate. }
      assert (cur <> []) as Hcur.
      { destruct Hfirst as [H|H]; [exact H|]. simpl in H. discriminate. }
      pose proof (IH [] Hs (head_ok_rev_tail _ _ Hlast ltac:(discriminate))
                    (or_intror Hnext)) as Hrest.
      simpl app in Hrest.
      assert (Text.split_from [] (d :: s) <> []) as Hwords.
      { simpl. simpl in Hnext. destruct (isspace d); [discriminate|].
        apply split_from_nonempty. discriminate. }
      destruct cur as [|x cur]; [congruence|]. simpl truthy. cbv iota.
      destruct (Text.split_from [] (d :: s)) as [|w ws]; [congruence|].
      rewrite join_cons, Hrest. reflexivity.
    + rewrite IH.
      * rewrite <- app_assoc. reflexivity.
      * exact Hs.
      * destruct s as [|d s]; [reflexivity|].
        apply (head_ok_rev_tail c); [exact Hlast | discriminate].
      * left. intros E. apply app_eq_nil in E. destruct E; discriminate.
Qed.

(** X19.  A name that is already clean is returned as it is: a text that
    is not empty, is trimmed, has single spaces as its only white space,
    holds none of the replaced characters and has at most [max_len]
    characters. *)
Theorem clean_name_is_kept text max_len :
  text <> [] ->
  trimmed text ->
  single_spaced text = true ->
  Forall (fun c => forbidden_in_filename c = false) text ->
  len text <= max_len ->
  sanitize_filename text max_len = text.
Proof.
  intros Hne Htrim Hs Hsafe Hlen.
  unfold sanitize_filename.
  apply truthy_true in Hne. rewrite Hne.
  assert (forall old, forbidden_in_filename old = true ->
                      Text.replace_char old underscore text = text) as Hid.
  { intros old Hold. apply replace_char_id. intros c Hc ->.
    pose proof (proj1 (Forall_forall _ _) Hsafe old
                  (proj2 (list_elem_of_In _ _) Hc)) as Hbad.
    simpl in Hbad. congruence. }
  rewrite !Hid by reflexivity.
  apply truthy_true in Hne.
  destruct (last_not_space text Hne Htrim) as (w & c & Hw & Hc).
  assert (head_ok (rev text) = true) as Hlast.
  { rewrite Hw, rev_app_distr. simpl. rewrite Hc. reflexivity. }
  unfold Text.split.
  rewrite join_split_from;
    [|exact Hs | exact Hlast | right; apply head_not_space, Htrim].
  simpl app. rewrite slice_to_all by exact Hlen.
  apply truthy_true in Hne. rewrite Hne. reflexivity.
Qed.

(** A clean title. *)
Lemma clean_name_is_kept_witness :
  sanitize_filename (lit "2014 case_no 12") 180 = lit "2014 case_no 12".
Proof.
  apply clean_name_is_kept;
    [discriminate | reflexivity | reflexivity | repeat constructor
    | vm_compute; discriminate].
Defined.

(** ** normalize_block and the words of a block *)

Lemma lstrip_gap s :
  exists gap, s = gap ++ lstrip s /\ Forall (fun c => isspace c = true) gap.
Proof.
  induction s as [|c s (gap & IH & Hgap)].
  - exists []. split; [reflexivity | constructor].
  - simpl. destruct (isspace c) eqn:Hc.
    + exists (c :: gap). split; [simpl; f_equal; exact IH|].
      constructor; assumption.
    + exists []. split; [reflexivity | constructor].
Qed.

Lemma lstrip_spaces gap s :
  Forall (fun c => isspace c = true) gap -> lstrip (gap ++ s) = lstrip s.
Proof.
  induction 1 as [|c gap Hc _ IH]; [reflexivity|].
  simpl. rewrite Hc. exact IH.
Qed.

Lemma lstrip_head_ok s : head_ok s = true -> lstrip s = s.
Proof.
  destruct s as [|c s]; [reflexivity|]. simpl.
  destruct (isspace c); [discriminate | reflexivity].
Qed.

Lemma rstrip_unique y gap :
  Forall (fun c => isspace c = true) gap ->
  head_ok (rev y) = true ->
  rstrip (y ++ gap) = y.
Proof.
  intros Hgap Hy. unfold rstrip.
  rewrite rev_app_distr, lstrip_spaces by (apply Forall_rev, Hgap).
  rewrite (lstrip_head_ok _ Hy). apply rev_involutive.
Qed.

Lemma split_from_app_space a c b : forall cur,
  isspace c = true ->
  Text.split_from cur (a ++ c :: b)
  = Text.split_from cur a ++ Text.split_from [] b.
Proof.
  induction a as [|d a IH]; intros cur Hc; simpl.
  - rewrite Hc. destruct (truthy cur); reflexivity.
  - destruct (isspace d).
    + destruct (truthy cur); simpl; rewrite IH by exact Hc; reflexivity.
    + apply IH, Hc.
Qed.

Lemma split_spaces gap :
  Forall (fun c => isspace c = true) gap -> Text.split gap = [].
Proof.
  unfold Text.split. induction 1 as [|c gap Hc _ IH]; [reflexivity|].
  simpl. rewrite Hc. exact IH.
Qed.

Lemma split_app_spaces y gap :
  Forall (fun c => isspace c = true) gap ->
  Text.split (y ++ gap) = Text.split y.
Proof.
  intros Hgap. destruct Hgap as [|c gap Hc Hgap].
  - rewrite app_nil_r. reflexivity.
  - unfold Text.split. rewrite split_from_app_space by exact Hc.
    fold (Text.split gap). rewrite (split_spaces gap Hgap).
    apply app_nil_r.
Qed.

Lemma split_spaces_app gap s :
  Forall (fun c => isspace c = true) gap ->
  Text.split (gap ++ s) = Text.split s.
Proof.
  unfold Text.split. induction 1 as [|c gap Hc _ IH]; [reflexivity|].
  simpl. rewrite Hc. exact IH.
Qed.

Lemma rstrip_gap s :
  exists gap, s = rstrip s ++ gap /\ Forall (fun c => isspace c = true) gap.
Proof.
  destruct (lstrip_gap (rev s)) as (gap & H & Hgap).
  exists (rev gap). split; [|apply Forall_rev, Hgap].
  unfold rstrip. rewrite <- (rev_involutive s) at 1. rewrite H at 1.
  apply rev_app_distr.
Qed.

Lemma split_strip s : Text.split (strip s) = Text.split s.
Proof.
  unfold strip.
  destruct (rstrip_gap (lstrip s)) as (gap & H & Hgap).
  destruct (lstrip_gap s) as (gap' & H' & Hgap').
  rewrite H' at 2. rewrite split_spaces_app by exact Hgap'.
  rewrite H at 2. rewrite split_app_spaces by exact Hgap. reflexivity.
Qed.

Lemma split_join lines :
  Text.split (join [space] lines) = concat (map Text.split lines).
Proof.
  induction lines as [|l lines IH]; [reflexivity|].
  destruct lines as [|m lines].
  - simpl. rewrite app_nil_r. reflexivity.
  - rewrite join_cons.
    change ([space] ++ join [space] (m :: lines))
      with (space :: join [space] (m :: lines)).
    unfold Text.split at 1. rewrite split_from_app_space by reflexivity.
    fold (Text.split l). fold (Text.split (join [space] (m :: lines))).
    rewrite IH. reflexivity.
Qed.

Lemma split_splitlines n : forall s cur,
  (length s <= n)%nat ->
  concat (map Text.split (Text.splitlines_from cur s)) = Text.split (cur ++ s).
Proof.
  induction n as [|n IH]; intros s cur Hlen.
  - destruct s; [|simpl in Hlen; lia]. simpl. rewrite app_nil_r.
    destruct cur; simpl; [reflexivity | apply app_nil_r].
  - destruct s as [|c s].
    { simpl. rewrite app_nil_r.
      destruct cur; simpl; [reflexivity | apply app_nil_r]. }
    simpl in Hlen. simpl Text.splitlines_from.
    destruct (Text.is_linebreak c) eqn:Hlb.
    + pose proof (linebreak_isspace c Hlb) as Hc.
      assert (concat (map Text.split (cur :: Text.splitlines_from [] s))
              = Text.split (cur ++ c :: s)) as Hplain.
      { simpl. rewrite (IH s []) by lia. simpl app.
        unfold Text.split at 3. rewrite split_from_app_space by exact Hc.
        reflexivity. }
      destruct s as [|d s]; [exact Hplain|].
      destruct ((c =? 13)%N && (d =? 10)%N) eqn:Hcrlf; [|exact Hplain].
      apply andb_prop in Hcrlf. destruct Hcrlf as [_ Hd].
      apply N.eqb_eq in Hd. subst d.
      simpl. rewrite (IH s []) by (simpl in Hlen; lia). simpl app.
      unfold Text.split at 3. rewrite split_from_app_space by exact Hc.
      reflexivity.
    + rewrite (IH s (cur ++ [c])) by lia. rewrite <- app_assoc. reflexivity.
Qed.

Lemma sub_spaces_lstrip s :
  lstrip (Text.sub_spaces_from false s) = Text.sub_spaces_from true s.
Proof.
  destruct s as [|c s]; [reflexivity|]. simpl.
  destruct (isspace c) eqn:Hc; simpl.
  - apply lstrip_head_ok, sub_spaces_single. exact false.
  - rewrite Hc. reflexivity.
Qed.

Lemma sub_spaces_words s : forall cur,
  exists gap,
    Forall (fun c => isspace c = true) gap
    /\ (if truthy cur then cur ++ Text.sub_spaces_from false s
        else Text.sub_spaces_from true s)
       = join [space] (Text.split_from cur s) ++ gap.
Proof.
  induction s as [|c s IH]; intros cur.
  - exists []. split; [constructor|]. simpl.
    destruct cur; simpl; rewrite ?app_nil_r; reflexivity.
  - simpl. destruct (isspace c) eqn:Hc.
    + destruct (IH []) as (gap & Hgap & Hrest). simpl in Hrest.
      destruct cur as [|x cur]; simpl truthy; cbv iota.
      * exists gap. auto.
      * destruct (Text.split_from [] s) as [|w ws] eqn:Hwords.
        -- exists (space :: gap). split; [constructor; [reflexivity|exact Hgap]|].
           rewrite Hrest. reflexivity.
        -- exists gap. split; [exact Hgap|].
           rewrite join_cons, Hrest, <- !app_assoc. reflexivity.
    + destruct (IH (cur ++ [c])) as (gap & Hgap & Hrest).
      exists gap. split; [exact Hgap|].
      assert (truthy (cur ++ [c]) = true) as Ht by (destruct cur; reflexivity).
      rewrite Ht in Hrest. rewrite <- Hrest.
      destruct cur; simpl; rewrite <- ?app_assoc; reflexivity.
Qed.

Lemma join_split_trimmed s :
  head_ok (rev (join [space] (Text.split s))) = true.
Proof.
  pose proof (split_from_words s [] (List.Forall_nil _)) as Hwords.
  fold (Text.split s) in Hwords.
  assert (Forall (fun p => p <> [] /\ trimmed p) (Text.split s)) as Hshape.
  { eapply Forall_impl; [exact Hwords|]. intros w Hw.
    destruct (word_shape w Hw) as (? & ? & _). auto. }
  apply head_not_space, trimmed_rev.
  unfold trimmed. rewrite <- (chunk_of_plain _ Hshape) at 2. reflexivity.
Qed.

Lemma strip_sub_spaces s :
  strip (Text.sub_spaces s) = join [space] (Text.split s).
Proof.
  unfold strip, Text.sub_spaces. rewrite sub_spaces_lstrip.
  destruct (sub_spaces_words s []) as (gap & Hgap & H). simpl in H.
  rewrite H. apply rstrip_unique; [exact Hgap | apply join_split_trimmed].
Qed.

Lemma normalize_block_split block :
  normalize_block block = join [space] (Text.split block).
Proof.
  unfold normalize_block. rewrite strip_sub_spaces. f_equal.
  rewrite split_join, map_map.
  rewrite (map_ext _ Text.split) by (intros l; apply split_strip).
  unfold Text.splitlines.
  apply (split_splitlines (length block)). lia.
Qed.

(** X20.  Lines 52 and 53 leave of a block its words, joined by single
    spaces: the text is the one that joining [block.split()] with a
    space gives. *)
Theorem normalize_block_words block :
  normalize_block block = join [space] (Text.split block).
Proof.
  unfold normalize_block. rewrite strip_sub_spaces. f_equal.
  rewrite split_join, map_map.
  rewrite (map_ext _ Text.split) by (intros l; apply split_strip).
  apply (split_splitlines (length block)). lia.
Qed.

(** ** The blocks of a page *)

Lemma blank_match_spaces rest : forall n,
  Text.blank_match rest = Some n ->
  Forall (fun c => isspace c = true) (take n rest).
Proof.
  induction rest as [|c rest IH]; intros n; simpl; [discriminate|].
  destruct (isspace c) eqn:Hc; [|discriminate].
  destruct (Text.blank_match rest) as [m|].
  - intros [= <-]. simpl. constructor; [exact Hc | apply IH; reflexivity].
  - destruct (c =? 10)%N; [|discriminate].
    intros [= <-]. simpl. constructor; [exact Hc | constructor].
Qed.

Lemma split_drop_spaces n (s : str) :
  Forall (fun c => isspace c = true) (take n s) ->
  Text.split (drop n s) = Text.split s.
Proof.
  intros H. rewrite <- (take_drop n s) at 2.
  symmetry. apply split_spaces_app, H.
Qed.

Lemma split_re_split s : forall skip cur,
  concat (map Text.split (Text.re_split_from skip cur s))
  = Text.split (cur ++ drop skip s).
Proof.
  induction s as [|c s IH]; intros skip cur.
  - simpl. rewrite drop_nil, !app_nil_r. reflexivity.
  - simpl Text.re_split_from. destruct skip as [|k].
    + simpl drop.
      assert (concat (map Text.split (Text.re_split_from 0 (cur ++ [c]) s))
              = Text.split (cur ++ c :: s)) as Hplain.
      { rewrite IH. simpl drop. rewrite <- app_assoc. reflexivity. }
      destruct (N.eqb_spec c 10) as [->|_]; [|exact Hplain].
      destruct (Text.blank_match s) as [n|] eqn:Hmatch; [|exact Hplain].
      simpl. rewrite IH. simpl app.
      rewrite (split_drop_spaces n s (blank_match_spaces s n Hmatch)).
      unfold Text.split at 3. rewrite split_from_app_space by reflexivity.
      reflexivity.
    + simpl drop. apply IH.
Qed.

Lemma split_from_replace_nbsp text : forall cur,
  Text.split_from cur (Text.replace_char 160%N [space] text)
  = Text.split_from cur text.
Proof.
  induction text as [|c text IH]; intros cur; [reflexivity|].
  change (Text.replace_char 160%N [space] (c :: text))
    with ((if (c =? 160)%N then [space] else [c])
          ++ Text.replace_char 160%N [space] text).
  destruct (N.eqb_spec c 160) as [->|_]; simpl.
  - destruct (truthy cur); rewrite IH; reflexivity.
  - destruct (isspace c); [destruct (truthy cur)|]; rewrite IH; reflexivity.
Qed.

(** X21.  Cutting a page at its blank lines loses no word and breaks
    none: the words of the blocks of a page, block after block, are the
    words of the text of the page. *)
Theorem page_blocks_keep_words (text : str) :
  concat (map Text.split (page_blocks (Some text))) = Text.split text.
Proof.
  assert (page_blocks (Some text)
          = Text.re_split_blank (Text.replace_char 160%N [space] text))
    as -> by (destruct text; reflexivity).
  unfold Text.re_split_blank. rewrite split_re_split.
  rewrite drop_0, app_nil_l. apply split_from_replace_nbsp.
Qed.

(** ** extract_paragraphs as one pass *)

Lemma blocks_loop_filter blocks :
  blocks_loop blocks [] = List.filter kept (map normalize_block blocks).
Proof.
  induction blocks as [|block rest IH]; [reflexivity|].
  simpl. unfold kept at 1.
  destruct (truthy (normalize_block block)); simpl; [|exact IH].
  destruct ((len (normalize_block block) <? 25)
            && negb (Text.re_match_marker (normalize_block block)));
    simpl; [exact IH|].
  rewrite blocks_loop_acc, IH. reflexivity.
Qed.

(** X22.  [extract_paragraphs] returns, in the order of the pages and of
    the blocks on a page, the words of each block joined by single
    spaces, for the blocks where that text is not empty and has 25
    characters or starts like a section marker; it returns nothing else
    and nothing twice. *)
Theorem extract_paragraphs_in_one_pass pages :
  extract_paragraphs pages
  = List.filter kept
      (map (fun block => join [space] (Text.split block))
           (concat (map page_blocks pages))).
Proof.
  rewrite (map_ext _ normalize_block)
    by (intros block; symmetry; apply normalize_block_split).
  unfold extract_paragraphs.
  induction pages as [|page rest IH]; [reflexivity|].
  simpl. rewrite pages_loop_acc, IH, blocks_loop_filter.
  rewrite map_app, List.filter_app. reflexivity.
Qed.

(** ** From the pages to the requests *)

Lemma posted_inputs_take {float path : Type}
    (parent : path -> path)
    (build_sql : str -> str -> list (str * list float) -> str)
    (e : Pipeline.env) (args : Pipeline.namespace) :
  exists n,
    posted_inputs (Pipeline.main parent build_sql e args []).1
    = take n (Pipeline.planned_chunks e args).
Proof.
  destruct (main_trace parent build_sql e args)
    as (log & res & -> & [[-> _]|(key & n & _ & _ & Hcase)]); simpl.
  - exists 0%nat. reflexivity.
  - destruct Hcase as [[-> _]|(vectors & tail & _ & _ & _ & -> & Htail)].
    + exists n. apply posted_inputs_embedding.
    + exists (length (Pipeline.planned_chunks e args)).
      rewrite posted_inputs_app, posted_inputs_embedding, firstn_all.
      destruct Htail as [[-> _]|[[-> _]|[-> _]]]; simpl; apply app_nil_r.
Qed.

(** X23.  When the paragraphs come from [extract_paragraphs], every text
    [main] sends to the provider is not empty, is trimmed, and has single
    spaces as its only white space. *)
Theorem requests_are_normalised {float path : Type}
    (parent : path -> path)
    (build_sql : str -> str -> list (str * list float) -> str)
    (e : Pipeline.env) (args : Pipeline.namespace)
    (pages : list (option str)) :
  Pipeline.extracted e = Pipeline.Ok (extract_paragraphs pages) ->
  Forall (fun input =>
            input <> [] /\ trimmed input /\ single_spaced input = true)
         (posted_inputs (Pipeline.main parent build_sql e args []).1).
Proof.
  intros Hext.
  destruct (posted_inputs_take parent build_sql e args) as [n ->].
  apply Forall_take. unfold Pipeline.planned_chunks. rewrite Hext.
  apply chunks_of_extracted_shape.
Qed.

(** One page, two paragraphs, one chunk and one request. *)
Lemma requests_are_normalised_witness :
  posted_inputs
    (Pipeline.main parent_stub build_sql_stub env_page args_scenario_two []).1
  = [lit "1. Scope This paragraph is long enough to be kept."]
  /\ Forall (fun input =>
               input <> [] /\ trimmed input /\ single_spaced input = true)
            (posted_inputs
               (Pipeline.main parent_stub build_sql_stub env_page
                  args_scenario_two []).1).
Proof.
  split; [vm_compute; reflexivity|].
  apply (requests_are_normalised parent_stub build_sql_stub env_page
           args_scenario_two [Some page_example]).
  reflexivity.
Defined.

(** ** The loop over the cases *)

Section TaxlawFacts.

Import Taxlaw.

Context {float : Type}.

Variable e : env float.
Variable args : namespace float.

Lemma fetched_app (log more : list (event float)) :
  fetched (log ++ more) = fetched log ++ fetched more.
Proof.
  induction log as [|ev log IH]; [reflexivity|].
  destruct ev; simpl; rewrite ?IH; reflexivity.
Qed.

Lemma case_body_spec total idx ntst_id c events :
  exists more res,
    body e args total idx ntst_id c events = (events ++ more, res)
    /\ fetched more = [ntst_id]
    /\ Forall (fun ev => ~ is_done ev) more
    /\ match res with
       | Ok c' =>
           saved c'
           = saved c
             + match fetch_case e idx ntst_id with
               | Returned true => 1
               | _ => 0
               end
           /\ saved c' + skipped c' = saved c + skipped c + 1
           /\ fetch_case e idx ntst_id <> Interrupted
           /\ sleep_answer e (delay args) idx = true
       | Raise x => x = Propagated
       end
    /\ (fetch_case e idx ntst_id <> Interrupted ->
        (forall m, log_answer e m = true) ->
        sleep_answer e (delay args) idx = true ->
        exists c', res = Ok c').
Proof.
  cbv beta delta [body bind try_fetch_case log call ret].
  destruct (fetch_case e idx ntst_id) as [[|]| |] eqn:Hfetch;
    repeat match goal with
    | |- context [log_answer e ?m] =>
        let H := fresh "Hlog" in destruct (log_answer e m) eqn:H
    end;
    destruct (sleep_answer e (delay args) idx) eqn:Hsleep;
    cbv beta iota zeta; rewrite <- ?app_assoc; simpl app;
    eexists _, _; (split; [reflexivity|]);
    (split; [reflexivity|]);
    (split; [repeat constructor; exact id|]);
    (split; [simpl; try reflexivity; repeat split; try lia; congruence|]);
    intros Hf Hl Hs; try congruence; eauto;
    match goal with
    | H : log_answer e ?m = false |- _ => rewrite Hl in H; discriminate
    end.
Qed.

Lemma cases_loop_spec total ids : forall idx c events,
  exists more res,
    cases_loop e args total idx ids c events = (events ++ more, res)
    /\ fetched more `prefix_of` ids
    /\ Forall (fun ev => ~ is_done ev) more
    /\ match res with
       | Ok c' =>
           fetched more = ids
           /\ saved c' = saved c + successes e idx ids
           /\ saved c' + skipped c' = saved c + skipped c + len ids
       | Raise x => x = Propagated
       end
    /\ ((forall idx ntst_id, fetch_case e idx ntst_id <> Interrupted) ->
        (forall m, log_answer e m = true) ->
        (forall idx, sleep_answer e (delay args) idx = true) ->
        exists c', res = Ok c').
Proof.
  induction ids as [|ntst_id rest IH]; intros idx c events.
  - exists [], (Ok c). simpl. rewrite app_nil_r.
    split; [reflexivity|]. split; [reflexivity|]. split; [constructor|].
    unfold len; simpl. split; [split; [reflexivity | split; lia]|].
    eauto.
  - destruct (case_body_spec total idx ntst_id c events)
      as (more1 & res1 & Hrun1 & Hf1 & Hd1 & Hres1 & Hq1).
    simpl cases_loop. unfold bind at 1. rewrite Hrun1.
    destruct res1 as [c1|x1].
    + destruct (IH (idx + 1) c1 (events ++ more1))
        as (more2 & res2 & Hrun2 & Hf2 & Hd2 & Hres2 & Hq2).
      exists (more1 ++ more2), res2.
      split; [rewrite Hrun2, app_assoc; reflexivity|].
      rewrite fetched_app, Hf1.
      split; [apply (prefix_app [ntst_id]), Hf2|].
      split; [apply Forall_app; split; assumption|].
      split; [|exact Hq2].
      destruct res2 as [c2|x2]; [|exact Hres2].
      destruct Hres1 as (Hs1 & Hsum1 & _).
      destruct Hres2 as (-> & Hs2 & Hsum2).
      split; [reflexivity|].
      simpl successes. unfold len in *. simpl length.
      rewrite Nat2Z.inj_succ. split; lia.
    + exists more1, (Raise x1).
      split; [reflexivity|]. rewrite Hf1.
      split; [exists rest; reflexivity|].
      split; [exact Hd1|]. split; [exact Hres1|].
      intros Hf Hl Hs.
      destruct (Hq1 (Hf idx ntst_id) Hl (Hs idx)) as [c' Hc']. discriminate.
Qed.

(** A round whose [time.sleep] raises is the last one. *)
Lemma cases_loop_sleepless total ntst_id rest idx c events :
  sleep_answer e (delay args) idx = false ->
  exists more,
    cases_loop e args total idx (ntst_id :: rest) c events
    = (events ++ more, Raise Propagated)
    /\ fetched more = [ntst_id]
    /\ Forall (fun ev => ~ is_done ev) more.
Proof.
  intros Hsleep.
  destruct (case_body_spec total idx ntst_id c events)
    as (more & res & Hrun & Hf & Hd & Hres & _).
  simpl cases_loop. unfold bind at 1. rewrite Hrun.
  destruct res as [c1|x1].
  - destruct Hres as (_ & _ & _ & Hs). congruence.
  - subst x1. exists more. auto.
Qed.

Lemma taxlaw_main_unfolded :
  start args <= stop args ->
  let total := stop args - start args + 1 in
  main e args []
  = if prepare_answer e
    then
      match cases_loop e args total 1 (seqZ (start args) total)
              (Counters 0 0) [Prepared] with
      | (events, Ok c) =>
          let done := Logged (Done (saved c) (skipped c) total) false in
          if log_answer e (Done (saved c) (skipped c) total)
          then (events ++ [done; Closed],
                if close_answer e then Ok tt else Raise Propagated)
          else (events ++ [done], Raise Propagated)
      | (events, Raise x) => (events, Raise x)
      end
    else ([Prepared], Raise Propagated).
Proof.
  intros Hle total. unfold main, range.
  destruct (Z.gtb_spec (start args) (stop args)) as [Hgt|_]; [lia|].
  replace (stop args + 1 - start args) with total by (unfold total; lia).
  fold total.
  unfold bind at 1. unfold call at 1. simpl app.
  destruct (prepare_answer e); [|reflexivity].
  unfold bind at 1.
  destruct (cases_loop e args total 1 (seqZ (start args) total)
              (Counters 0 0) [Prepared]) as [events [c|x]]; [|reflexivity].
  unfold bind, log, call.
  destruct (log_answer e (Done (saved c) (skipped c) total)); simpl.
  - rewrite <- app_assoc. reflexivity.
  - reflexivity.
Qed.

Lemma not_done_prepared (more : list (event float)) :
  Forall (fun ev => ~ is_done ev) more ->
  ~ Exists is_done ([Prepared] ++ more).
Proof.
  intros Hall Hex. inversion Hex as [? ? Hd|? ? Hex']; [exact Hd|].
  apply Exists_exists in Hex'. destruct Hex' as (ev & Hin & Hd).
  apply (proj1 (Forall_forall _ _) Hall ev Hin Hd).
Qed.

End TaxlawFacts.

(** X24.  For [start <= end].  The cases [fetch_case] is called for
    are the first ones of [start], [start + 1], ..., [end], in this
    order, and the [DONE] line is logged only when it was called for all
    of them.  When no call escapes, that is when [fetch_case] returns or
    raises an exception that [except Exception] catches and the set-up,
    [log] and [time.sleep] return, [fetch_case] is called for every case,
    whatever the earlier calls answered; [saved] counts the calls that
    returned [True] and [skipped] all the others, so that together they
    are [total]; and the [DONE] line reports them before the log file is
    closed.  When [time.sleep] raises in the first round, as it does for
    a negative [--delay], [main] ends with that exception after the
    first case, and no [DONE] line is logged. *)
Theorem every_case_is_tried {float : Type}
    (e : Taxlaw.env float) (args : Taxlaw.namespace float) :
  Taxlaw.start args <= Taxlaw.stop args ->
  let total := Taxlaw.stop args - Taxlaw.start args + 1 in
  let ids := seqZ (Taxlaw.start args) total in
  exists events res,
    Taxlaw.main e args [] = (events, res)
    /\ Taxlaw.fetched events `prefix_of` ids
    /\ (Exists Taxlaw.is_done events -> Taxlaw.fetched events = ids)
    /\ (Taxlaw.undisturbed e args ->
        Taxlaw.fetched events = ids
        /\ exists c before,
             events
             = before
               ++ [Taxlaw.Logged
                     (Taxlaw.Done (Taxlaw.saved c) (Taxlaw.skipped c) total)
                     false;
                   Taxlaw.Closed]
             /\ Taxlaw.saved c = Taxlaw.successes e 1 ids
             /\ Taxlaw.saved c + Taxlaw.skipped c = total
             /\ res = if Taxlaw.close_answer e
                      then Taxlaw.Ok tt
                      else Taxlaw.Raise Taxlaw.Propagated)
    /\ (Taxlaw.prepare_answer e = true ->
        Taxlaw.sleep_answer e (Taxlaw.delay args) 1 = false ->
        Taxlaw.fetched events = [Taxlaw.start args]
        /\ res = Taxlaw.Raise Taxlaw.Propagated
        /\ ~ Exists Taxlaw.is_done events).
Proof.
  intros Hle total ids.
  rewrite (taxlaw_main_unfolded e args Hle). fold total. fold ids.
  destruct (Taxlaw.prepare_answer e) eqn:Hprep.
  - destruct (cases_loop_spec e args total ids 1 (Taxlaw.Counters 0 0)
                [Taxlaw.Prepared])
      as (more & res1 & Hrun & Hpre & Hnd & Hres & Hquiet).
    rewrite Hrun.
    assert (ids = Taxlaw.start args
                  :: seqZ (Z.succ (Taxlaw.start args)) (Z.pred total))
      as Hids by (apply seqZ_cons; unfold total; lia).
    assert (Taxlaw.sleep_answer e (Taxlaw.delay args) 1 = false ->
            res1 = Taxlaw.Raise Taxlaw.Propagated
            /\ Taxlaw.fetched more = [Taxlaw.start args]) as Hsleepless.
    { intros Hsleep.
      destruct (cases_loop_sleepless e args total (Taxlaw.start args)
                  (seqZ (Z.succ (Taxlaw.start args)) (Z.pred total))
                  1 (Taxlaw.Counters 0 0) [Taxlaw.Prepared] Hsleep)
        as (more' & Hrun' & Hf' & _).
      rewrite <- Hids, Hrun in Hrun'.
      injection Hrun' as Hmore Hres1.
      subst more'. split; [exact Hres1 | exact Hf']. }
    destruct res1 as [c|x].
    + destruct Hres as (Hf & Hs & Hsum).
      assert (forall tail : list (Taxlaw.event float),
                Forall (fun ev => Taxlaw.fetched [ev] = []) tail ->
                Taxlaw.fetched (([Taxlaw.Prepared] ++ more) ++ tail) = ids)
        as Hfetched.
      { intros tail Htail. rewrite !fetched_app, Hf. simpl.
        induction Htail as [|ev tail Hev _ IH]; [apply app_nil_r|].
        change (ev :: tail) with ([ev] ++ tail).
        rewrite fetched_app, Hev. exact IH. }
      destruct (Taxlaw.log_answer e
                  (Taxlaw.Done (Taxlaw.saved c) (Taxlaw.skipped c) total))
        eqn:Hlog; cbv zeta.
      * eexists _, _. split; [reflexivity|].
        rewrite Hfetched by (repeat constructor).
        split; [reflexivity|]. split; [reflexivity|].
        split.
        -- intros _. split; [reflexivity|].
           exists c, ([Taxlaw.Prepared] ++ more). split; [reflexivity|].
           unfold len in Hsum. unfold ids in Hsum at 1.
           rewrite length_seqZ in Hsum. simpl in Hs, Hsum.
           split; [exact Hs|]. split; [unfold total in *; lia | reflexivity].
        -- intros _ Hsleep. destruct (Hsleepless Hsleep) as [Hno _].
           discriminate.
      * eexists _, _. split; [reflexivity|].
        rewrite Hfetched by (repeat constructor).
        split; [reflexivity|]. split; [reflexivity|].
        split.
        -- intros (_ & _ & Hl & _). rewrite Hl in Hlog. discriminate.
        -- intros _ Hsleep. destruct (Hsleepless Hsleep) as [Hno _].
           discriminate.
    + subst x. eexists _, _. split; [reflexivity|].
      rewrite fetched_app. simpl Taxlaw.fetched at 1. simpl app at 1.
      split; [exact Hpre|].
      split; [intros Hex; destruct (not_done_prepared more Hnd Hex)|].
      split.
      { intros (_ & Hf & Hl & Hs).
        destruct (Hquiet Hf Hl Hs) as [c' Hc']. discriminate. }
      intros _ Hsleep. destruct (Hsleepless Hsleep) as [_ Hf'].
      split; [exact Hf'|]. split; [reflexivity|].
      apply not_done_prepared, Hnd.
  - eexists _, _. split; [reflexivity|]. simpl.
    split; [apply prefix_nil|].
    split.
    { intros Hex. inversion Hex as [? ? Hd|? ? Hd];
        [destruct Hd | inversion Hd]. }
    split; [intros (Hp & _); congruence|].
    intros Hp. discriminate.
Qed.

(** Seven cases and a delay of one second: [fetch_case] is called for
    all of them. *)
Lemma every_case_is_tried_witness :
  14 <= 20
  /\ Taxlaw.fetched
       (Taxlaw.main Taxlaw.env_every_third (Taxlaw.Args 14 20 1) []).1
     = [14; 15; 16; 17; 18; 19; 20].
Proof.
  assert (14 <= 20) as Hle by lia.
  split; [exact Hle|].
  destruct (every_case_is_tried Taxlaw.env_every_third
              (Taxlaw.Args 14 20 1) Hle)
    as (events & res & Hmain & _ & _ & Hquiet & _).
  rewrite Hmain. simpl fst.
  apply Hquiet. split; [reflexivity|].
  split; [|split; intros; reflexivity].
  intros idx ntst_id. simpl. unfold Taxlaw.every_third.
  destruct (_ =? _); [discriminate|]. destruct (_ =? _); discriminate.
Defined.

(** The same cases with a delay of minus one second: the run ends in
    the first round, at [time.sleep]. *)
Example negative_delay_stops :
  Taxlaw.main Taxlaw.env_every_third (Taxlaw.Args 14 20 (-1)) []
  = ([Taxlaw.Prepared; Taxlaw.FetchedCase 14;
      Taxlaw.Logged (Taxlaw.CaseError 1 7 14) true;
      Taxlaw.Logged (Taxlaw.CaseSkipped 1 7 14) false;
      Taxlaw.Slept (-1)],
     Taxlaw.Raise Taxlaw.Propagated).
Proof. vm_compute. reflexivity. Qed.

(** With [start] after [end] nothing is fetched. *)
Example start_after_end_exits :
  Taxlaw.main Taxlaw.env_every_third (Taxlaw.Args 20 14 1) []
  = ([Taxlaw.PrintedStartAfterEnd], Taxlaw.Raise (Taxlaw.SystemExit 1)).
Proof. vm_compute. reflexivity. Qed.
